(** * Hilbert-ND: Skilling's transpose transforms and the bit (un)interleaving

    Shallow embedding of [src/main.cpp].

    - [coord_t] is [unsigned int]: a 32-bit word, modelled as a [Z] in
      [0, 2^32) with the wrap-around of [<<] and [-] written out.  C++ gives
      no value to a shift by 32 bits or more; the model gives it the
      mathematical one (every bit has left the word).
    - An array [coord_t *X] of [n] cells is a [list Z]; [X[i]] is the total
      lookup [X !!! i] and [X[i] = v] is [<[i:=v]> X].  Every call of the
      source passes an array of exactly [n] cells, so all indices the code
      touches are in range.
    - The dimension [n] and the bit count [b] are non-negative [int]s and are
      modelled as [nat]; counted [for] loops over an index become folds over
      the list of indices in the order the loop visits them.
    - The loops over the bit plane [Q] are not counted: they are run by a
      [while] combinator with fuel, and termination is proved
      ([AxestoTranspose_eq], [TransposetoAxes_eq]). *)

From stdpp Require Import base list.
From Stdlib Require Import ZArith Lia.

Local Open Scope Z_scope.

(** ** Machine words *)

Module Word.

Definition width : Z := 32.

(** Reduction of a mathematical integer to an [unsigned int]. *)
Definition wrap (z : Z) : Z := z mod 2 ^ width.

(** Reinterpretation of a 32-bit pattern as an [int] (two's complement). *)
Definition to_int (z : Z) : Z :=
  let u := wrap z in if u <? 2 ^ (width - 1) then u else u - 2 ^ width.

(** [x << k] for a count [0 <= k < 32]: the bits pushed past the top of the
    word are lost.  C++ leaves a shift by 32 or more undefined; this
    definition then loses every bit and returns 0, whereas a processor that
    takes the count modulo the width returns [x << (k mod 32)].  The two
    agree on every count below the width. *)
Definition shl (x k : Z) : Z := wrap (Z.shiftl x k).

(** [x >> k] on an unsigned word for a count [0 <= k < 32].  A count of 32
    or more is undefined in C++ as well; this definition then returns 0,
    whereas a processor that takes the count modulo the width returns
    [x >> (k mod 32)]. *)
Definition shr (x k : Z) : Z := Z.shiftr x k.

(** [x - y] on unsigned words. *)
Definition sub (x y : Z) : Z := wrap (x - y).

(** [x * y] on unsigned words. *)
Definition mul (x y : Z) : Z := wrap (x * y).

(** [x + y] on unsigned words. *)
Definition add (x y : Z) : Z := wrap (x + y).

(** A well-formed [coord_t]. *)
Definition ok (x : Z) : Prop := 0 <= x < 2 ^ width.

End Word.

(** ** Loops *)

(** [while (cond s) s = body s;], cut off after [fuel] iterations. *)
Fixpoint while {St : Type} (fuel : nat) (cond : St → bool) (body : St → St)
  (s : St) : option St :=
  if cond s then
    match fuel with
    | O => None
    | S fuel' => while fuel' cond body (body s)
    end
  else Some s.

(** Number of times the body of that loop runs. *)
Fixpoint iterations {St : Type} (fuel : nat) (cond : St → bool)
  (body : St → St) (s : St) : nat :=
  if cond s then
    match fuel with
    | O => O
    | S fuel' => S (iterations fuel' cond body (body s))
    end
  else O.

(** A bit plane [Q] lives in a 32-bit word that is halved or doubled at every
    iteration, so 32 iterations are always enough. *)
Definition plane_fuel : nat := 32.

(** Indices visited by [for (int i = lo; i < lo + len; i++)]. *)
Definition upto (lo len : nat) : list nat := seq lo len.

(** Indices visited by the same range walked downwards. *)
Definition downto (lo len : nat) : list nat := rev (seq lo len).

(** ** The transforms *)

(** Body of the inner loop shared by both transforms (lines 38-47 and 61-70):
    invert the low bits of [X[0]], or exchange the low bits of [X[0]] and
    [X[i]]. *)
Definition invert_or_exchange (Q P : Z) (X : list Z) (i : nat) : list Z :=
  if negb (Z.land (X !!! i) Q =? 0) then
    <[0%nat := Z.lxor (X !!! 0%nat) P]> X
  else
    let t := Z.land (Z.lxor (X !!! 0%nat) (X !!! i)) P in
    let X := <[0%nat := Z.lxor (X !!! 0%nat) t]> X in
    <[i := Z.lxor (X !!! i) t]> X.

(** [X[i] ^= X[i - 1]] *)
Definition xor_prev (X : list Z) (i : nat) : list Z :=
  <[i := Z.lxor (X !!! i) (X !!! (i - 1)%nat)]> X.

(** [X[i] ^= t] *)
Definition xor_with (t : Z) (X : list Z) (i : nat) : list Z :=
  <[i := Z.lxor (X !!! i) t]> X.

(** *** TransposetoAxes (lines 20-50) *)

(** Lines 24-31: [t = X[n-1] >> 1], the chain walked downwards, [X[0] ^= t]. *)
Definition gray_decode (n : nat) (X : list Z) : list Z :=
  let t := Word.shr (X !!! (n - 1)%nat) 1 in
  let X := foldl xor_prev X (downto 1 (n - 1)) in
  <[0%nat := Z.lxor (X !!! 0%nat) t]> X.

(** Test [Q != N] of the loop of line 33, on the loop state [(Q, X)]. *)
Definition plane_differs (N : Z) (s : Z * list Z) : bool := negb (s.1 =? N).

(** One bit plane of lines 35-48, followed by [Q <<= 1]. *)
Definition undo_excess_body (n : nat) (s : Z * list Z) : Z * list Z :=
  let '(Q, X) := s in
  let P := Word.sub Q 1 in
  (Word.shl Q 1, foldl (invert_or_exchange Q P) X (downto 0 n)).

Definition undo_excess (N : Z) (n : nat) (X : list Z) : option (list Z) :=
  snd <$> while plane_fuel (plane_differs N) (undo_excess_body n) (2, X).

Definition TransposetoAxes (X : list Z) (b n : nat) : option (list Z) :=
  let N := Word.shl 2 (Z.of_nat b - 1) in
  undo_excess N n (gray_decode n X).

(** *** AxestoTranspose (lines 52-90) *)

(** Test [Q > 1] of the loops of lines 56 and 79. *)
Definition plane_above_one {A : Type} (s : Z * A) : bool := 1 <? s.1.

(** One bit plane of lines 58-71, followed by [Q >>= 1]. *)
Definition inverse_undo_body (n : nat) (s : Z * list Z) : Z * list Z :=
  let '(Q, X) := s in
  let P := Word.sub Q 1 in
  (Word.shr Q 1, foldl (invert_or_exchange Q P) X (upto 0 n)).

Definition inverse_undo (M : Z) (n : nat) (X : list Z) : option (list Z) :=
  snd <$> while plane_fuel plane_above_one (inverse_undo_body n) (M, X).

(** Lines 74-77. *)
Definition gray_encode (n : nat) (X : list Z) : list Z :=
  foldl xor_prev X (upto 1 (n - 1)).

(** Lines 81-84, followed by [Q >>= 1]; the loop state is [(Q, t)]. *)
Definition correction_body (n : nat) (X : list Z) (s : Z * Z) : Z * Z :=
  let '(Q, t) := s in
  (Word.shr Q 1,
   if negb (Z.land (X !!! (n - 1)%nat) Q =? 0)
   then Z.lxor t (Word.sub Q 1) else t).

(** Lines 78-85. *)
Definition correction (M : Z) (n : nat) (X : list Z) : option Z :=
  snd <$> while plane_fuel plane_above_one (correction_body n X) (M, 0).

Definition AxestoTranspose (X : list Z) (b n : nat) : option (list Z) :=
  let M := Word.shl 1 (Z.of_nat b - 1) in
  X ← inverse_undo M n X;
  let X := gray_encode n X in
  t ← correction M n X;
  Some (foldl (xor_with t) X (upto 0 n)).

(** [AxestoTranspose] followed by [TransposetoAxes] on the same array. *)
Definition there_and_back (X : list Z) (b n : nat) : option (list Z) :=
  X ← AxestoTranspose X b n; TransposetoAxes X b n.

(** [TransposetoAxes] followed by [AxestoTranspose] on the same array. *)
Definition back_and_there (X : list Z) (b n : nat) : option (list Z) :=
  X ← TransposetoAxes X b n; AxestoTranspose X b n.

(** ** Interleaving *)

(** The memory [interleaveBits] works on: the caller's array and the scratch
    array it allocates. *)
Record store := { st_X : list Z; st_coden : list Z }.

Definition set_coden (s : store) (c : list Z) : store :=
  {| st_X := st_X s; st_coden := c |}.

(** [malloc(n * sizeof(unsigned int))]: a fresh block of [n] cells, disjoint
    from [X]; every cell is written before it is read. *)
Definition malloc (n : nat) : list Z := replicate n 0.

(** [coden[j] |= (unsigned int)(X[j] & andbit) << i] *)
Definition spread_bit (andbit : Z) (i : nat) (s : store) (j : nat) : store :=
  set_coden s
    (<[j := Z.lor (st_coden s !!! j)
               (Word.shl (Z.land (st_X s !!! j) (Word.wrap andbit))
                  (Z.of_nat i))]>
       (st_coden s)).

(** [res |= (coden[j] << (n - j - 1))], [res] being an [int]. *)
Definition merge (n : nat) (coden : list Z) (res : Z) (j : nat) : Z :=
  Word.to_int (Z.lor (Word.wrap res)
                 (Word.shl (coden !!! j) (Z.of_nat n - Z.of_nat j - 1))).

(** Returns the final contents of the caller's array together with the [int]
    result. *)
Definition interleaveBits_run (X : list Z) (b n : nat) : list Z * Z :=
  let s := {| st_X := X; st_coden := malloc n |} in
  let s := foldl (λ s i, set_coden s (<[i := 0]> (st_coden s))) s (upto 0 n) in
  let nbits2 := (2 * b)%nat in
  (* the k-th iteration has i = 2 * k; it runs while 2 * k < nbits2 *)
  let '(s, _) :=
    foldl (λ '(s, andbit) k,
             let i := (2 * k)%nat in
             (foldl (spread_bit andbit i) s (upto 0 n),
              Word.to_int (Z.shiftl andbit 1)))
          (s, 1) (upto 0 ((nbits2 + 1) / 2)) in
  let res := Word.to_int (Word.shl (st_coden s !!! 0%nat) (Z.of_nat n - 1)) in
  let res := foldl (merge n (st_coden s)) res (upto 1 (n - 1)) in
  (st_X s, res).

Definition interleaveBits (X : list Z) (b n : nat) : Z :=
  snd (interleaveBits_run X b n).

Definition uninterleaveBits (X : list Z) (b n : nat) (code : Z) : list Z :=
  let X := foldl (λ X i, <[i := 0]> X) X (upto 0 n) in
  foldl (λ X i,
           let selector := 1 in
           let shift_selector := Word.mul 3 (Z.of_nat i) in
           let shiftback := Word.mul 2 (Z.of_nat i) in
           foldl (λ X j,
                    <[(n - j - 1)%nat :=
                        Z.lor (X !!! (n - j - 1)%nat)
                          (Word.shr
                             (Z.land code
                                (Word.shl selector
                                   (Word.add shift_selector (Z.of_nat j))))
                             (Word.add shiftback (Z.of_nat j)))]> X)
                 X (upto 0 n))
        X (upto 0 (b + 1)).

(** The driver of [main]: the array after each call and the code. *)
Definition main_trace : option (list Z * Z * list Z * list Z) :=
  X1 ← AxestoTranspose [5; 10; 20] 5 3;
  let code := Word.wrap (interleaveBits X1 5 3) in
  let X2 := uninterleaveBits X1 5 3 code in
  X3 ← TransposetoAxes X2 5 3;
  Some (X1, code, X2, X3).

(** Lines 143 and 163 of [main]: the code is stored in an [unsigned int] and
    unpacked into the same array. *)
Definition pack_unpack (X : list Z) (b n : nat) : list Z :=
  let code := Word.wrap (interleaveBits X b n) in
  uninterleaveBits X b n code.

(** The fifteen digits that [main] prints after the code: for each level from
    4 down to 0, the bit of [X[0]], [X[1]], [X[2]] at that level. *)
Definition printed_digits (X : list Z) : list Z :=
  flat_map
    (λ level : Z,
       map (λ i : nat, Z.land (Z.shiftr (X !!! i) level) 1) [0; 1; 2]%nat)
    [4; 3; 2; 1; 0].

(** The [len] low binary digits of [code], most significant first. *)
Definition binary_digits (len : nat) (code : Z) : list Z :=
  map (λ k : nat, Z.b2z (Z.testbit code (Z.of_nat k))) (downto 0 len).

(** ** What the specification asks of the interleaved code *)

(** Specification, section 4.3: the bit at absolute position [k] of the code
    is bit [k div n] of coordinate [(n-1) - (k mod n)]. *)
Definition spec_interleaved_bit (X : list Z) (n k : nat) : bool :=
  Z.testbit (X !!! (n - 1 - k mod n)%nat) (Z.of_nat (k / n)).

(** A coordinate vector of [n] words whose entries lie in [0, 2^b - 1]. *)
Definition coords (b n : nat) (X : list Z) : Prop :=
  length X = n ∧ Forall (λ x, Word.ok x ∧ 0 <= x <= 2 ^ Z.of_nat b - 1) X.

(** ** Loop-free views of the loops over [Q]

    The lemmas below show that the loops of the source compute these. *)

(** The bit plane [Q = 2^k], [P = Q - 1], applied to the indices in [order]. *)
Definition plane (order : list nat) (X : list Z) (k : nat) : list Z :=
  foldl (invert_or_exchange (2 ^ Z.of_nat k) (2 ^ Z.of_nat k - 1)) X order.

(** One step of the correction loop at the plane [Q = 2^k]. *)
Definition gray_mask_step (x : Z) (t : Z) (k : nat) : Z :=
  if Z.testbit x (Z.of_nat k) then Z.lxor t (2 ^ Z.of_nat k - 1) else t.

(** The correction accumulated over the planes [q, q-1, .., 1]. *)
Definition gray_mask (q : nat) (x : Z) : Z :=
  foldl (gray_mask_step x) 0 (downto 1 q).

(** What [invert_or_exchange Q P X i] xors into cell [j]. *)
Definition step_mask (Q P : Z) (X : list Z) (i j : nat) : Z :=
  if negb (Z.land (X !!! i) Q =? 0) then
    if decide (j = 0%nat) then P else 0
  else
    if decide (j = 0%nat ∨ j = i)
    then Z.land (Z.lxor (X !!! 0%nat) (X !!! i)) P else 0.

(** Number of planes [AxestoTranspose] visits: [b - 1], none once [1 << (b-1)]
    has left the word. *)
Definition planes_down (b : nat) : nat :=
  if (b <=? 32)%nat then (b - 1)%nat else 0%nat.

(** Number of planes [TransposetoAxes] visits: [Q] runs from 2 to [2^(b-1)],
    and stops at [2^31] when [2 << (b-1)] has left the word. *)
Definition planes_up (b : nat) : nat := (Nat.min b 32 - 1)%nat.

(** [x] has no bit at position [m] or above. *)
Definition fits (m : Z) (x : Z) : Prop := 0 <= x < 2 ^ m.


(** *** Views of the interleaving loops *)

(** Value of [andbit] when iteration [k] of the loop of line 100 starts. *)
Definition andbit_at (k : nat) : Z :=
  Nat.iter k (λ a, Word.to_int (Z.shiftl a 1)) 1.

(** What the first [K] iterations of that loop leave in [coden[j]], where [x]
    is [X[j]]. *)
Definition spread (K : nat) (x : Z) : Z :=
  foldl (λ c k,
           Z.lor c (Word.shl (Z.land x (Word.wrap (andbit_at k)))
                      (Z.of_nat (2 * k))))
        0 (upto 0 K).

(** The value line 130 ors into [X[n - j - 1]] at iteration [(i, j)]. *)
Definition picked (code : Z) (i j : nat) : Z :=
  Word.shr
    (Z.land code
       (Word.shl 1 (Word.add (Word.mul 3 (Z.of_nat i)) (Z.of_nat j))))
    (Word.add (Word.mul 2 (Z.of_nat i)) (Z.of_nat j)).

(** What the first [K] iterations of the loop of line 123 leave in
    [X[n - j - 1]]. *)
Definition unpacked (code : Z) (j K : nat) : Z :=
  foldl (λ acc i, Z.lor acc (picked code i j)) 0 (upto 0 K).

(** ** Views used by the further properties *)

(** Lines 140-166 of [main] on any array: transpose, pack, unpack, back to
    axes. *)
Definition hilbert_round_trip (X : list Z) (b n : nat) : option (list Z) :=
  T ← AxestoTranspose X b n; TransposetoAxes (pack_unpack T b n) b n.

(** Lines 163-166 of [main]: the point of a Hilbert code. *)
Definition hilbert_point (b n : nat) (code : Z) : option (list Z) :=
  TransposetoAxes (uninterleaveBits (replicate n 0) b n code) b n.

(** Sum of the coordinate differences of two points. *)
Definition manhattan (P Q : list Z) : Z :=
  foldr Z.add 0 (zip_with (λ p q, Z.abs (p - q)) P Q).

(** The value of line 130 without the word arithmetic, for positions inside
    the word: bit [3 i + j] of the code moved to position [i]. *)
Definition picked_bit (code : Z) (i j : nat) : Z :=
  if Z.testbit code (3 * Z.of_nat i + Z.of_nat j)
  then Z.shiftl 1 (Z.of_nat i) else 0.

(** The point of a code in three dimensions, through the loop-free views of
    [uninterleaveBits] and [TransposetoAxes]. *)
Definition point_3 (b : nat) (code : Z) : list Z :=
  let cell j := foldl (λ acc i, Z.lor acc (picked_bit code i j)) 0
                  (upto 0 (b + 1)) in
  foldl (plane (downto 0 3)) (gray_decode 3 [cell 2%nat; cell 1%nat; cell 0%nat])
    (upto 1 (planes_up b)).

(** Walks along the curve from the point [P] of [code]: checks that each of
    the next [steps] codes gives a point of three coordinates one unit step
    away from the point before it. *)
Fixpoint unit_steps (b : nat) (P : list Z) (code : Z) (steps : nat) : bool :=
  match steps with
  | O => true
  | S steps' =>
      let Q := point_3 b (code + 1) in
      if (length Q =? 3)%nat && (manhattan P Q =? 1)
      then unit_steps b Q (code + 1) steps'
      else false
  end.

(** ** Folds *)

Lemma foldl_invariant {A B : Type} (P : A → Prop) (f : A → B → A)
  (l : list B) :
  ∀ a, P a → (∀ a x, P a → P (f a x)) → P (foldl f a l).
Proof.
  induction l as [|x l IH]; intros a Ha Hf; simpl; [done|].
  apply IH; auto.
Qed.

Lemma foldl_snoc {A B : Type} (f : A → B → A) (l : list B) (x : B) (a : A) :
  foldl f a (l ++ [x]) = f (foldl f a l) x.
Proof. by rewrite foldl_app. Qed.

Lemma upto_snoc (lo len : nat) :
  upto lo (S len) = upto lo len ++ [(lo + len)%nat].
Proof. unfold upto. by rewrite seq_S. Qed.

Lemma downto_cons (lo len : nat) :
  downto lo (S len) = (lo + len)%nat :: downto lo len.
Proof. unfold downto. rewrite seq_S, rev_app_distr. done. Qed.

Lemma downto_rev (lo len : nat) : downto lo len = rev (upto lo len).
Proof. done. Qed.

Lemma upto_rev (lo len : nat) : upto lo len = rev (downto lo len).
Proof. unfold downto, upto. by rewrite rev_involutive. Qed.

(** Zeroing the first [k] cells, one index at a time. *)
Lemma zero_fill_prefix (X : list Z) (k : nat) :
  (k ≤ length X)%nat →
  foldl (λ X i, <[i := 0]> X) X (upto 0 k) = replicate k 0 ++ drop k X.
Proof.
  induction k as [|k IH]; intros Hk; [done|].
  rewrite upto_snoc, foldl_snoc, IH, replicate_S_end by lia.
  destruct (lookup_lt_is_Some_2 X k) as [x Hx]; [lia|].
  rewrite (drop_S _ _ _ Hx), Nat.add_0_l.
  rewrite insert_app_r_alt by (rewrite length_replicate; lia).
  rewrite length_replicate, Nat.sub_diag, <- app_assoc. done.
Qed.

Lemma zero_fill (X : list Z) (n : nat) :
  length X = n → foldl (λ X i, <[i := 0]> X) X (upto 0 n) = replicate n 0.
Proof.
  intros Hn. rewrite zero_fill_prefix by lia.
  rewrite drop_ge by lia. by rewrite app_nil_r.
Qed.

(** ** The interleaving only reads the caller's array *)

Lemma spread_bit_X (andbit : Z) (i : nat) (s : store) (j : nat) :
  st_X (spread_bit andbit i s j) = st_X s.
Proof. done. Qed.

(** C9: [interleaveBits] leaves the caller's coordinate vector as it found
    it: the array after the call equals the array before the call, for every
    [n >= 1], [b >= 1] and every vector of length [n]. *)
Theorem interleaveBits_frame (X : list Z) (b n : nat) :
  (1 ≤ n)%nat → (1 ≤ b)%nat → length X = n →
  fst (interleaveBits_run X b n) = X.
Proof.
  intros _ _ _. unfold interleaveBits_run.
  set (s0 := foldl _ _ (upto 0 n)).
  assert (H0 : st_X s0 = X).
  { subst s0. apply (foldl_invariant (λ s, st_X s = X)); [done|].
    by intros s i Hs. }
  set (r := foldl _ (s0, 1) _).
  assert (Hr : st_X r.1 = X).
  { subst r. apply (foldl_invariant (λ p : store * Z, st_X p.1 = X)); [done|].
    intros [s a] k Hs; simpl in *.
    apply (foldl_invariant (λ s, st_X s = X)); [done|].
    intros s' j Hs'. by rewrite spread_bit_X. }
  destruct r as [s a]; simpl in *. done.
Qed.

Lemma interleaveBits_frame_witness :
  fst (interleaveBits_run [10; 14; 27] 5 3) = [10; 14; 27].
Proof.
  apply (interleaveBits_frame [10; 14; 27] 5 3); [lia | lia | done].
Defined.

(** ** The de-interleaving overwrites its output array *)

(** C10: the contents [uninterleaveBits] leaves in the output vector do not
    depend on what the vector held before: two vectors of length [n] end up
    equal when run with the same [b], [n] and [code]. *)
Theorem uninterleaveBits_ignores_old_contents
  (X1 X2 : list Z) (b n : nat) (code : Z) :
  (1 ≤ b)%nat → (1 ≤ n)%nat → length X1 = n → length X2 = n →
  uninterleaveBits X1 b n code = uninterleaveBits X2 b n code.
Proof.
  intros _ _ H1 H2. unfold uninterleaveBits.
  by rewrite (zero_fill X1 n H1), (zero_fill X2 n H2).
Qed.

Lemma uninterleaveBits_ignores_old_contents_witness :
  uninterleaveBits [1; 2; 3] 5 3 7865 = uninterleaveBits [9; 9; 9] 5 3 7865.
Proof.
  apply (uninterleaveBits_ignores_old_contents [1; 2; 3] [9; 9; 9] 5 3 7865);
    [lia | lia | done | done].
Defined.

(** ** The example of [main] *)

(** C4, as the code has it: for [b = 5], [n = 3] and axes [(5, 10, 20)] the
    transpose is [(10, 14, 27)], its interleaved code is 7865, and that code
    written as fifteen bits in groups of three (the bits of [X[0]], [X[1]],
    [X[2]] per level, most significant level first) reads
    [001 111 010 111 001]; these are also the digits [main] prints. *)
Theorem known_example :
  AxestoTranspose [5; 10; 20] 5 3 = Some [10; 14; 27] ∧
  interleaveBits [10; 14; 27] 5 3 = 7865 ∧
  binary_digits 15 7865 = [0; 0; 1;  1; 1; 1;  0; 1; 0;  1; 1; 1;  0; 0; 1] ∧
  printed_digits [10; 14; 27] = binary_digits 15 7865.
Proof. by vm_compute. Qed.

(** C4, as the specification words it, does not hold: the code is 7865, but
    neither its fifteen bits nor the fifteen digits read off the transpose
    are [111 110 100 001 101] (which is 32013). *)
Lemma spec_digits_are_not_7865 :
  ¬ (∃ X : list Z,
        AxestoTranspose [5; 10; 20] 5 3 = Some X ∧
        interleaveBits X 5 3 = 7865 ∧
        (binary_digits 15 (interleaveBits X 5 3)
         = [1; 1; 1;  1; 1; 0;  1; 0; 0;  0; 0; 1;  1; 0; 1]
         ∨ printed_digits X
           = [1; 1; 1;  1; 1; 0;  1; 0; 0;  0; 0; 1;  1; 0; 1])).
Proof.
  intros (X & HX & Hcode & Hdigits).
  assert (HX' : AxestoTranspose [5; 10; 20] 5 3 = Some [10; 14; 27])
    by (by vm_compute).
  rewrite HX' in HX. injection HX as <-.
  destruct Hdigits as [Hdigits|Hdigits];
    vm_compute in Hdigits; discriminate Hdigits.
Qed.

(** ** The hard-wired stride of the (un)interleaving *)

(** C2 at [n = 4], [b = 2] (8 bits of code): bit 0 of [X[0]] and bit 1 of
    [X[3]] are both packed at position 3, so unpacking does not give the
    vector back. *)
Lemma pack_unpack_four_dimensions :
  coords 2 4 [1; 0; 0; 0] ∧
  interleaveBits [1; 0; 0; 0] 2 4 = 8 ∧
  pack_unpack [1; 0; 0; 0] 2 4 = [1; 0; 0; 2].
Proof.
  split; [|by vm_compute].
  split; [done|]. repeat constructor; by vm_compute.
Qed.

(** C3 at [n = 2], [b = 2], position [k = 3]: the specification puts bit 1 of
    coordinate 0 there, the code puts it at position 4. *)
Lemma interleaveBits_two_dimensions :
  coords 2 2 [2; 0] ∧
  interleaveBits [2; 0] 2 2 = 16 ∧
  Z.testbit (interleaveBits [2; 0] 2 2) 3 = false ∧
  spec_interleaved_bit [2; 0] 2 3 = true.
Proof.
  split; [|by vm_compute].
  split; [done|]. repeat constructor; by vm_compute.
Qed.

(** C5 at [n = 1], [b = 2]: the coordinate 2 is packed as 8, and the code 2
    is unpacked as 0. *)
Lemma interleaveBits_one_dimension :
  coords 2 1 [2] ∧
  interleaveBits [2] 2 1 = 8 ∧
  uninterleaveBits [0] 2 1 2 = [0].
Proof.
  split; [|by vm_compute].
  split; [done|]. repeat constructor; by vm_compute.
Qed.

(** ** One bit per coordinate *)

Lemma xor_with_zero (X : list Z) (l : list nat) : foldl (xor_with 0) X l = X.
Proof.
  apply (foldl_invariant (λ Y, Y = X)); [done|].
  intros Y i ->. unfold xor_with. rewrite Z.lxor_0_r.
  apply list_insert_id'. intros Hi.
  by apply list_lookup_lookup_total_lt.
Qed.

(** C7: with [b = 1] no bit plane is visited by either transform (the three
    loops over [Q] run zero times): [AxestoTranspose] is the chain
    [X[i] ^= X[i-1]], [i = 1..n-1], with a zero correction [t], and
    [TransposetoAxes] is the Gray decode alone ([t = X[n-1] >> 1], the chain
    walked downwards, [X[0] ^= t]). *)
Theorem one_bit_transforms (n : nat) (X : list Z) :
  (1 ≤ n)%nat → coords 1 n X →
  let M := Word.shl 1 (Z.of_nat 1 - 1) in
  let N := Word.shl 2 (Z.of_nat 1 - 1) in
  iterations plane_fuel plane_above_one (inverse_undo_body n) (M, X) = 0%nat ∧
  iterations plane_fuel plane_above_one
    (correction_body n (gray_encode n X)) (M, 0) = 0%nat ∧
  iterations plane_fuel (plane_differs N) (undo_excess_body n)
    (2, gray_decode n X) = 0%nat ∧
  correction M n (gray_encode n X) = Some 0 ∧
  AxestoTranspose X 1 n = Some (foldl xor_prev X (upto 1 (n - 1))) ∧
  TransposetoAxes X 1 n =
    Some (let t := Word.shr (X !!! (n - 1)%nat) 1 in
          let X' := foldl xor_prev X (downto 1 (n - 1)) in
          <[0%nat := Z.lxor (X' !!! 0%nat) t]> X').
Proof.
  intros _ _ M N. repeat split; try done.
  unfold AxestoTranspose. change (Word.shl 1 (Z.of_nat 1 - 1)) with 1.
  change (inverse_undo 1 n X) with (Some X). simpl.
  change (correction 1 n (gray_encode n X)) with (Some 0). simpl.
  by rewrite xor_with_zero.
Qed.

Lemma one_bit_transforms_witness :
  AxestoTranspose [1; 0; 1] 1 3 = Some [1; 1; 0] ∧
  TransposetoAxes [1; 1; 0] 1 3 = Some [1; 0; 1].
Proof.
  assert (Hc : coords 1 3 [1; 0; 1]).
  { split; [done|]. repeat constructor; by vm_compute. }
  assert (Hc' : coords 1 3 [1; 1; 0]).
  { split; [done|]. repeat constructor; by vm_compute. }
  split.
  - apply (one_bit_transforms 3 [1; 0; 1]); [lia | exact Hc].
  - apply (one_bit_transforms 3 [1; 1; 0]); [lia | exact Hc'].
Defined.

(** ** Bits *)

Lemma testbit_above (m x j : Z) :
  0 <= m → fits m x → m <= j → Z.testbit x j = false.
Proof.
  intros Hm Hx Hj. rewrite <- (Z.mod_small x (2 ^ m)) by exact Hx.
  apply Z.mod_pow2_bits_high. lia.
Qed.

Lemma fits_of_bits (m x : Z) :
  0 <= m → 0 <= x → (∀ j, m <= j → Z.testbit x j = false) → fits m x.
Proof.
  intros Hm Hx Hbits.
  assert (Heq : x = x mod 2 ^ m).
  { apply Z.bits_inj'. intros j Hj.
    destruct (Z.lt_ge_cases j m) as [Hlt | Hge].
    - by rewrite Z.mod_pow2_bits_low.
    - rewrite Z.mod_pow2_bits_high by lia. by apply Hbits. }
  unfold fits. rewrite Heq. apply Z.mod_pos_bound. by apply Z.pow_pos_nonneg.
Qed.

Lemma fits_mono (m m' x : Z) : 0 <= m <= m' → fits m x → fits m' x.
Proof.
  intros Hm [H0 Hx]. split; [done|].
  eapply Z.lt_le_trans; [exact Hx|]. apply Z.pow_le_mono_r; lia.
Qed.

Lemma fits_lxor (m x y : Z) :
  0 <= m → fits m x → fits m y → fits m (Z.lxor x y).
Proof.
  intros Hm Hx Hy. apply fits_of_bits; [done| |].
  - apply Z.lxor_nonneg. unfold fits in *. lia.
  - intros j Hj. rewrite Z.lxor_spec.
    by rewrite (testbit_above m x j), (testbit_above m y j).
Qed.

Lemma fits_land_r (m x y : Z) : 0 <= m → fits m y → fits m (Z.land x y).
Proof.
  intros Hm Hy. apply fits_of_bits; [done| |].
  - apply Z.land_nonneg. unfold fits in *. lia.
  - intros j Hj. rewrite Z.land_spec.
    rewrite (testbit_above m y j) by done. apply andb_false_r.
Qed.

Lemma fits_shiftr (m x : Z) : 0 <= m → fits m x → fits m (Z.shiftr x 1).
Proof.
  intros Hm Hx. apply fits_of_bits; [done| |].
  - apply Z.shiftr_nonneg. unfold fits in *. lia.
  - intros j Hj. rewrite Z.shiftr_spec by lia.
    apply (testbit_above m); [done..|lia].
Qed.

Lemma fits_0 (m : Z) : 0 <= m → fits m 0.
Proof. intros Hm. split; [done|]. by apply Z.pow_pos_nonneg. Qed.

Lemma low_mask_ones (k : Z) : 2 ^ k - 1 = Z.ones k.
Proof. rewrite Z.ones_equiv. lia. Qed.

Lemma fits_low_mask (k : Z) : 0 <= k → fits k (2 ^ k - 1).
Proof.
  intros Hk. assert (0 < 2 ^ k) by (by apply Z.pow_pos_nonneg).
  unfold fits. lia.
Qed.

(** The test [x & Q] of the source, for [Q = 2^k]. *)
Lemma land_pow2_test (x k : Z) :
  0 <= k → negb (Z.land x (2 ^ k) =? 0) = Z.testbit x k.
Proof.
  intros Hk. destruct (Z.testbit x k) eqn:Hb.
  - apply negb_true_iff, Z.eqb_neq. intros H0.
    assert (Ht : Z.testbit (Z.land x (2 ^ k)) k = true).
    { by rewrite Z.land_spec, Hb, Z.pow2_bits_true. }
    rewrite H0, Z.bits_0 in Ht. discriminate.
  - apply negb_false_iff, Z.eqb_eq. apply Z.bits_inj'. intros j Hj.
    rewrite Z.land_spec, Z.bits_0, Z.pow2_bits_eqb by done.
    destruct (Z.eqb_spec k j) as [->|]; [by rewrite Hb | apply andb_false_r].
Qed.

(** A mask below the plane does not disturb the test of the plane. *)
Lemma land_pow2_lxor_low (x t k : Z) :
  0 <= k → fits k t → Z.land (Z.lxor x t) (2 ^ k) = Z.land x (2 ^ k).
Proof.
  intros Hk Ht. apply Z.bits_inj'. intros j Hj.
  rewrite !Z.land_spec, Z.lxor_spec, Z.pow2_bits_eqb by done.
  destruct (Z.eqb_spec k j) as [<-|]; [|by rewrite !andb_false_r].
  by rewrite (testbit_above k t k), xorb_false_r.
Qed.

Lemma wrap_small (x : Z) : Word.ok x → Word.wrap x = x.
Proof. intros Hx. by apply Z.mod_small. Qed.

Lemma pow2_ok (k : nat) : (k ≤ 31)%nat → Word.ok (2 ^ Z.of_nat k).
Proof.
  intros Hk. split; [apply Z.pow_nonneg; lia|].
  apply Z.pow_lt_mono_r; unfold Word.width; lia.
Qed.

Lemma pow2_gt_1 (k : nat) : 1 < 2 ^ Z.of_nat (S k).
Proof.
  rewrite Nat2Z.inj_succ, Z.pow_succ_r by lia.
  assert (0 < 2 ^ Z.of_nat k) by (apply Z.pow_pos_nonneg; lia). lia.
Qed.

Lemma sub_one_pow2 (k : nat) :
  (k ≤ 31)%nat → Word.sub (2 ^ Z.of_nat k) 1 = 2 ^ Z.of_nat k - 1.
Proof.
  intros Hk. apply wrap_small. destruct (pow2_ok k Hk).
  assert (0 < 2 ^ Z.of_nat k) by (apply Z.pow_pos_nonneg; lia).
  unfold Word.ok. lia.
Qed.

Lemma shr_pow2 (k : nat) : Word.shr (2 ^ Z.of_nat (S k)) 1 = 2 ^ Z.of_nat k.
Proof.
  unfold Word.shr. rewrite Z.shiftr_div_pow2 by lia.
  rewrite Nat2Z.inj_succ, Z.pow_succ_r by lia.
  change (2 ^ 1) with 2. rewrite Z.mul_comm, Z.div_mul; lia.
Qed.

Lemma shl_pow2 (k : nat) :
  Word.shl (2 ^ Z.of_nat k) 1 = Word.wrap (2 ^ Z.of_nat (S k)).
Proof.
  unfold Word.shl. rewrite Z.shiftl_mul_pow2 by lia.
  rewrite Nat2Z.inj_succ, Z.pow_succ_r by lia.
  change (2 ^ 1) with 2. f_equal. lia.
Qed.

(** [1 << (b-1)] and [2 << (b-1)]. *)
Lemma shl_1 (b : nat) :
  (1 ≤ b)%nat →
  Word.shl 1 (Z.of_nat b - 1) = Word.wrap (2 ^ Z.of_nat (b - 1)).
Proof.
  intros Hb. unfold Word.shl. rewrite Z.shiftl_mul_pow2 by lia.
  rewrite Z.mul_1_l. do 2 f_equal. lia.
Qed.

Lemma shl_2 (b : nat) :
  (1 ≤ b)%nat → Word.shl 2 (Z.of_nat b - 1) = Word.wrap (2 ^ Z.of_nat b).
Proof.
  intros Hb. unfold Word.shl. rewrite Z.shiftl_mul_pow2 by lia.
  f_equal. replace (Z.of_nat b) with (Z.succ (Z.of_nat b - 1)) at 2 by lia.
  rewrite Z.pow_succ_r by lia. done.
Qed.

Lemma wrap_pow2_high (k : nat) :
  (32 ≤ k)%nat → Word.wrap (2 ^ Z.of_nat k) = 0.
Proof.
  intros Hk. unfold Word.wrap, Word.width.
  replace (Z.of_nat k) with (32 + (Z.of_nat k - 32)) by lia.
  rewrite Z.pow_add_r, Z.mul_comm by lia. apply Z.mod_mul. lia.
Qed.

(** ** The loops over the bit planes terminate *)

Lemma while_stop {St : Type} (fuel : nat) (cond : St → bool) (body : St → St)
  (s : St) : cond s = false → while fuel cond body s = Some s.
Proof. intros H. destruct fuel; simpl; by rewrite H. Qed.

Lemma while_step {St : Type} (fuel : nat) (cond : St → bool) (body : St → St)
  (s : St) :
  cond s = true → while (S fuel) cond body s = while fuel cond body (body s).
Proof. intros H. simpl. by rewrite H. Qed.

Lemma inverse_undo_body_eq (n : nat) (Q : Z) (X : list Z) :
  inverse_undo_body n (Q, X)
  = (Word.shr Q 1, foldl (invert_or_exchange Q (Word.sub Q 1)) X (upto 0 n)).
Proof. done. Qed.

Lemma undo_excess_body_eq (n : nat) (Q : Z) (X : list Z) :
  undo_excess_body n (Q, X)
  = (Word.shl Q 1, foldl (invert_or_exchange Q (Word.sub Q 1)) X (downto 0 n)).
Proof. done. Qed.

Lemma correction_body_eq (n : nat) (X : list Z) (Q t : Z) :
  correction_body n X (Q, t)
  = (Word.shr Q 1,
     if negb (Z.land (X !!! (n - 1)%nat) Q =? 0)
     then Z.lxor t (Word.sub Q 1) else t).
Proof. done. Qed.

(** Started at [Q = 2^q], the loop of line 56 visits the planes
    [q, q-1, .., 1] and stops. *)
Lemma inverse_undo_loop (n : nat) :
  ∀ (q fuel : nat) (X : list Z),
    (q ≤ fuel)%nat → (q ≤ 31)%nat →
    while fuel plane_above_one (inverse_undo_body n) (2 ^ Z.of_nat q, X)
    = Some (1, foldl (plane (upto 0 n)) X (downto 1 q)).
Proof.
  induction q as [|q IH]; intros fuel X Hf Hq.
  - by apply while_stop.
  - destruct fuel as [|fuel]; [lia|].
    rewrite while_step by (apply Z.ltb_lt, pow2_gt_1).
    rewrite inverse_undo_body_eq, sub_one_pow2, shr_pow2 by lia.
    rewrite IH by lia. by rewrite downto_cons.
Qed.

(** The same for the loop of line 79. *)
Lemma correction_loop (n : nat) (X : list Z) :
  ∀ (q fuel : nat) (t : Z),
    (q ≤ fuel)%nat → (q ≤ 31)%nat →
    while fuel plane_above_one (correction_body n X) (2 ^ Z.of_nat q, t)
    = Some (1, foldl (gray_mask_step (X !!! (n - 1)%nat)) t (downto 1 q)).
Proof.
  induction q as [|q IH]; intros fuel t Hf Hq.
  - by apply while_stop.
  - destruct fuel as [|fuel]; [lia|].
    rewrite while_step by (apply Z.ltb_lt, pow2_gt_1).
    rewrite correction_body_eq, sub_one_pow2, shr_pow2 by lia.
    rewrite land_pow2_test by lia.
    rewrite IH by lia. by rewrite downto_cons.
Qed.

(** Started at [Q = 2^k], the loop of line 33 visits the planes
    [k, k+1, .., k+d-1] and stops when [Q] reaches [2^(k+d)], which is 0 in
    the word when [k + d = 32]. *)
Lemma undo_excess_loop (n : nat) :
  ∀ (d k fuel : nat) (X : list Z),
    (d ≤ fuel)%nat → (k + d ≤ 32)%nat →
    while fuel (plane_differs (Word.wrap (2 ^ Z.of_nat (k + d))))
      (undo_excess_body n) (Word.wrap (2 ^ Z.of_nat k), X)
    = Some (Word.wrap (2 ^ Z.of_nat (k + d)),
            foldl (plane (downto 0 n)) X (upto k d)).
Proof.
  induction d as [|d IH]; intros k fuel X Hf Hk.
  - rewrite Nat.add_0_r. apply while_stop.
    unfold plane_differs. simpl fst. by rewrite Z.eqb_refl.
  - destruct fuel as [|fuel]; [lia|].
    assert (Hok : Word.ok (2 ^ Z.of_nat k)) by (apply pow2_ok; lia).
    rewrite (wrap_small (2 ^ Z.of_nat k)) by done.
    rewrite while_step.
    2:{ unfold plane_differs. simpl fst. apply negb_true_iff, Z.eqb_neq.
        destruct (decide (k + S d ≤ 31)%nat) as [Hle|Hgt].
        - rewrite wrap_small by (by apply pow2_ok).
          intros Heq. apply Z.pow_inj_r in Heq; lia.
        - rewrite wrap_pow2_high by lia.
          assert (0 < 2 ^ Z.of_nat k) by (apply Z.pow_pos_nonneg; lia). lia. }
    rewrite undo_excess_body_eq, sub_one_pow2, shl_pow2 by lia.
    replace (k + S d)%nat with (S k + d)%nat by lia.
    by rewrite IH by lia.
Qed.

Lemma inverse_undo_eq (b n : nat) (X : list Z) :
  (1 ≤ b)%nat →
  inverse_undo (Word.shl 1 (Z.of_nat b - 1)) n X
  = Some (foldl (plane (upto 0 n)) X (downto 1 (planes_down b))).
Proof.
  intros Hb. unfold inverse_undo, planes_down. rewrite shl_1 by done.
  destruct (Nat.leb_spec b 32) as [Hle|Hgt].
  - rewrite wrap_small by (apply pow2_ok; lia).
    by rewrite inverse_undo_loop by (unfold plane_fuel; lia).
  - rewrite wrap_pow2_high by lia. by rewrite while_stop.
Qed.

Lemma correction_eq (b n : nat) (X : list Z) :
  (1 ≤ b)%nat →
  correction (Word.shl 1 (Z.of_nat b - 1)) n X
  = Some (gray_mask (planes_down b) (X !!! (n - 1)%nat)).
Proof.
  intros Hb. unfold correction, planes_down, gray_mask. rewrite shl_1 by done.
  destruct (Nat.leb_spec b 32) as [Hle|Hgt].
  - rewrite wrap_small by (apply pow2_ok; lia).
    by rewrite correction_loop by (unfold plane_fuel; lia).
  - rewrite wrap_pow2_high by lia. by rewrite while_stop.
Qed.

Lemma undo_excess_eq (b n : nat) (X : list Z) :
  (1 ≤ b)%nat →
  undo_excess (Word.shl 2 (Z.of_nat b - 1)) n X
  = Some (foldl (plane (downto 0 n)) X (upto 1 (planes_up b))).
Proof.
  intros Hb. unfold undo_excess, planes_up. rewrite shl_2 by done.
  assert (HN : Word.wrap (2 ^ Z.of_nat b)
               = Word.wrap (2 ^ Z.of_nat (1 + (Nat.min b 32 - 1)))).
  { destruct (decide (b ≤ 32)%nat).
    - do 3 f_equal. lia.
    - rewrite !wrap_pow2_high by lia. done. }
  rewrite HN. change 2 with (Word.wrap (2 ^ Z.of_nat 1)) at 1.
  by rewrite undo_excess_loop by (unfold plane_fuel; lia).
Qed.

(** Both transforms return, and what they return is loop-free. *)
Lemma AxestoTranspose_eq (X : list Z) (b n : nat) :
  (1 ≤ b)%nat →
  AxestoTranspose X b n
  = Some (let G := gray_encode n
                     (foldl (plane (upto 0 n)) X (downto 1 (planes_down b))) in
          foldl (xor_with (gray_mask (planes_down b) (G !!! (n - 1)%nat)))
            G (upto 0 n)).
Proof.
  intros Hb. unfold AxestoTranspose.
  rewrite inverse_undo_eq by done. simpl.
  by rewrite correction_eq by done.
Qed.

Lemma TransposetoAxes_eq (X : list Z) (b n : nat) :
  (1 ≤ b)%nat →
  TransposetoAxes X b n
  = Some (foldl (plane (downto 0 n)) (gray_decode n X) (upto 1 (planes_up b))).
Proof. intros Hb. unfold TransposetoAxes. by rewrite undo_excess_eq. Qed.

(** ** One step of a bit plane *)

Lemma list_eq_total (l1 l2 : list Z) :
  length l1 = length l2 →
  (∀ i, (i < length l1)%nat → l1 !!! i = l2 !!! i) → l1 = l2.
Proof.
  intros Hlen H. apply (list_eq_same_length _ _ (length l1)); [done..|].
  intros i x y Hi Hx Hy.
  apply list_lookup_total_correct in Hx, Hy. rewrite <- Hx, <- Hy. by apply H.
Qed.

Lemma invert_or_exchange_length (Q P : Z) (X : list Z) (i : nat) :
  length (invert_or_exchange Q P X i) = length X.
Proof.
  unfold invert_or_exchange. destruct (negb _); by rewrite ?length_insert.
Qed.

(** Every cell is xor-ed with its mask. *)
Lemma invert_or_exchange_lookup (Q P : Z) (X : list Z) (i j : nat) :
  (i < length X)%nat →
  invert_or_exchange Q P X i !!! j = Z.lxor (X !!! j) (step_mask Q P X i j).
Proof.
  intros Hi. unfold invert_or_exchange, step_mask.
  destruct (negb _).
  - rewrite list_lookup_total_insert.
    destruct (decide (j = 0%nat)) as [->|Hj].
    + by rewrite decide_True by lia.
    + rewrite decide_False by lia. by rewrite Z.lxor_0_r.
  - cbv zeta. rewrite !list_lookup_total_insert, !length_insert.
    destruct (decide (i = 0%nat)) as [->|Hi0].
    + rewrite Z.lxor_nilpotent, Z.land_0_l, !Z.lxor_0_r.
      repeat case_decide; rewrite ?Z.lxor_0_r;
        first [done | f_equal; lia | exfalso; lia].
    + repeat case_decide; rewrite ?Z.lxor_0_r;
        first [done | exfalso; lia | repeat f_equal; lia].
Qed.

Lemma lxor_cancel_both (a b t : Z) :
  Z.lxor (Z.lxor a t) (Z.lxor b t) = Z.lxor a b.
Proof.
  apply Z.bits_inj'. intros j _. rewrite !Z.lxor_spec.
  by destruct (Z.testbit a j), (Z.testbit b j), (Z.testbit t j).
Qed.

Lemma lxor_cancel_r (a t : Z) : Z.lxor (Z.lxor a t) t = a.
Proof. by rewrite Z.lxor_assoc, Z.lxor_nilpotent, Z.lxor_0_r. Qed.

Lemma step_mask_fits (m Q P : Z) (X : list Z) (i j : nat) :
  0 <= m → fits m P → fits m (step_mask Q P X i j).
Proof.
  intros Hm HP. unfold step_mask.
  destruct (negb _); case_decide;
    auto using fits_0, fits_land_r.
Qed.

Section plane_step.
Variable k : nat.
Local Abbreviation Q := (2 ^ Z.of_nat k).
Local Abbreviation P := (2 ^ Z.of_nat k - 1).

Lemma low_mask_fits : fits (Z.of_nat k) P.
Proof. apply fits_low_mask. lia. Qed.

(** The step does not touch the bit it tests. *)
Lemma step_test_stable (X : list Z) (i : nat) :
  (i < length X)%nat →
  Z.land (invert_or_exchange Q P X i !!! i) Q = Z.land (X !!! i) Q.
Proof.
  intros Hi. rewrite invert_or_exchange_lookup by done.
  apply land_pow2_lxor_low; [lia|].
  apply step_mask_fits; [lia | apply low_mask_fits].
Qed.

Lemma step_mask_stable (X : list Z) (i j : nat) :
  (i < length X)%nat →
  step_mask Q P (invert_or_exchange Q P X i) i j = step_mask Q P X i j.
Proof.
  intros Hi. unfold step_mask at 1. rewrite step_test_stable by done.
  rewrite !invert_or_exchange_lookup by done.
  unfold step_mask.
  destruct (negb _) eqn:Htest; [done|].
  destruct (decide (0%nat = 0%nat ∨ 0%nat = i)) as [_|[]]; [|by left].
  destruct (decide (i = 0%nat ∨ i = i)) as [_|[]]; [|by right].
  by rewrite lxor_cancel_both.
Qed.

(** Inverting twice, or exchanging twice, restores the array. *)
Lemma invert_or_exchange_twice (X : list Z) (i : nat) :
  (i < length X)%nat →
  invert_or_exchange Q P (invert_or_exchange Q P X i) i = X.
Proof.
  intros Hi. apply list_eq_total.
  - by rewrite !invert_or_exchange_length.
  - intros j _.
    rewrite invert_or_exchange_lookup
      by (by rewrite invert_or_exchange_length).
    rewrite step_mask_stable, invert_or_exchange_lookup by done.
    apply lxor_cancel_r.
Qed.

(** A step keeps [m]-bit cells [m]-bit, for a plane below [m]. *)
Lemma invert_or_exchange_fits (m : Z) (X : list Z) (i : nat) :
  Z.of_nat k <= m → (i < length X)%nat →
  Forall (fits m) X → Forall (fits m) (invert_or_exchange Q P X i).
Proof.
  intros Hm Hi HX. apply (Forall_lookup_total_2 (fits m)). intros j Hj.
  rewrite invert_or_exchange_length in Hj.
  rewrite invert_or_exchange_lookup by done.
  apply fits_lxor; [lia | by apply (Forall_lookup_total_1 (fits m)) |].
  apply step_mask_fits; [lia|].
  apply (fits_mono (Z.of_nat k)); [lia | apply low_mask_fits].
Qed.

End plane_step.

(** ** Whole planes *)

Lemma foldl_invariant_elem {A B : Type} (P : A → Prop) (f : A → B → A)
  (l : list B) :
  (∀ a x, x ∈ l → P a → P (f a x)) → ∀ a, P a → P (foldl f a l).
Proof.
  induction l as [|x l IH]; intros Hf a Ha; simpl; [done|].
  apply IH.
  - intros a' y Hy. apply Hf. by right.
  - apply Hf; [by left | done].
Qed.

(** Undoing a fold step by step, last step first. *)
Lemma foldl_undo {A B : Type} (Inv : A → Prop) (f g : A → B → A) (l : list B) :
  (∀ a x, x ∈ l → Inv a → Inv (f a x) ∧ g (f a x) x = a) →
  ∀ a, Inv a → foldl g (foldl f a l) (rev l) = a.
Proof.
  induction l as [|x l IH]; intros Hf a Ha; [done|].
  simpl. rewrite foldl_snoc.
  destruct (Hf a x) as [Hinv Hback]; [by left | done |].
  rewrite IH; [done | | done].
  intros a' y Hy. apply Hf. by right.
Qed.

Lemma elem_of_upto (lo len i : nat) :
  i ∈ upto lo len ↔ (lo ≤ i < lo + len)%nat.
Proof. unfold upto. apply elem_of_seq. Qed.

Lemma elem_of_downto (lo len i : nat) :
  i ∈ downto lo len ↔ (lo ≤ i < lo + len)%nat.
Proof.
  unfold downto. rewrite list_elem_of_In, <- in_rev, <- list_elem_of_In.
  apply elem_of_seq.
Qed.

Lemma plane_length (order : list nat) (X : list Z) (k : nat) :
  length (plane order X k) = length X.
Proof.
  unfold plane. apply (foldl_invariant (λ Y, length Y = length X)); [done|].
  intros Y i HY. by rewrite invert_or_exchange_length.
Qed.

(** A plane walked over the indices [n-1, .., 0] undoes the same plane walked
    over [0, .., n-1]. *)
Lemma plane_undo (n : nat) (X : list Z) (k : nat) :
  length X = n → plane (downto 0 n) (plane (upto 0 n) X k) k = X.
Proof.
  intros Hn. unfold plane. rewrite downto_rev.
  apply (foldl_undo (λ Y, length Y = n)); [|done].
  intros Y i Hi HY. apply elem_of_upto in Hi. split.
  - by rewrite invert_or_exchange_length.
  - apply invert_or_exchange_twice. lia.
Qed.

(** The planes [1, .., q] walked upwards undo the planes [q, .., 1]. *)
Lemma planes_undo (n q : nat) (X : list Z) :
  length X = n →
  foldl (plane (downto 0 n)) (foldl (plane (upto 0 n)) X (downto 1 q)) (upto 1 q)
  = X.
Proof.
  intros Hn. rewrite (upto_rev 1 q).
  apply (foldl_undo (λ Y, length Y = n)); [|done].
  intros Y k _ HY. split.
  - by rewrite plane_length.
  - by apply plane_undo.
Qed.

Lemma planes_length (order : list nat) (ks : list nat) (X : list Z) :
  length (foldl (plane order) X ks) = length X.
Proof.
  apply (foldl_invariant (λ Y, length Y = length X)); [done|].
  intros Y k HY. by rewrite plane_length.
Qed.

Lemma plane_fits (m : Z) (order : list nat) (X : list Z) (k : nat) :
  Z.of_nat k <= m → (∀ i, i ∈ order → (i < length X)%nat) →
  Forall (fits m) X → Forall (fits m) (plane order X k).
Proof.
  intros Hk Horder HX. unfold plane.
  apply (foldl_invariant_elem
           (λ Y, length Y = length X ∧ Forall (fits m) Y)); [|done].
  intros Y i Hi [HlenY HY]. split.
  - by rewrite invert_or_exchange_length.
  - apply invert_or_exchange_fits; [done | | done].
    rewrite HlenY. by apply Horder.
Qed.

Lemma planes_fits (m : Z) (order ks : list nat) (X : list Z) :
  (∀ k, k ∈ ks → Z.of_nat k <= m) → (∀ i, i ∈ order → (i < length X)%nat) →
  Forall (fits m) X → Forall (fits m) (foldl (plane order) X ks).
Proof.
  intros Hks Horder HX.
  apply (foldl_invariant_elem
           (λ Y, length Y = length X ∧ Forall (fits m) Y)); [|done].
  intros Y k Hk [HlenY HY]. split.
  - by rewrite plane_length.
  - apply plane_fits; [by apply Hks | | done].
    intros i Hi. rewrite HlenY. by apply Horder.
Qed.

(** ** The Gray chain *)

Lemma xor_prev_length (X : list Z) (i : nat) : length (xor_prev X i) = length X.
Proof. apply length_insert. Qed.

Lemma xor_with_length (t : Z) (X : list Z) (i : nat) :
  length (xor_with t X i) = length X.
Proof. apply length_insert. Qed.

Lemma chain_length (X : list Z) (l : list nat) :
  length (foldl xor_prev X l) = length X.
Proof.
  apply (foldl_invariant (λ Y, length Y = length X)); [done|].
  intros Y i HY. by rewrite xor_prev_length.
Qed.

Lemma xor_all_length (t : Z) (X : list Z) (l : list nat) :
  length (foldl (xor_with t) X l) = length X.
Proof.
  apply (foldl_invariant (λ Y, length Y = length X)); [done|].
  intros Y i HY. by rewrite xor_with_length.
Qed.

Lemma xor_prev_lookup (X : list Z) (i j : nat) :
  (i < length X)%nat →
  xor_prev X i !!! j
  = if decide (j = i) then Z.lxor (X !!! i) (X !!! (i - 1)%nat) else X !!! j.
Proof.
  intros Hi. unfold xor_prev. rewrite list_lookup_total_insert.
  repeat case_decide; first [done | exfalso; lia].
Qed.

Lemma xor_prev_twice (X : list Z) (i : nat) :
  (1 ≤ i < length X)%nat → xor_prev (xor_prev X i) i = X.
Proof.
  intros Hi. apply list_eq_total; [by rewrite !xor_prev_length|].
  intros j _.
  rewrite xor_prev_lookup by (rewrite xor_prev_length; lia).
  rewrite !xor_prev_lookup by lia.
  repeat case_decide; subst;
    first [done | exfalso; lia | apply lxor_cancel_r].
Qed.

(** The chain walked downwards undoes the chain walked upwards. *)
Lemma gray_encode_undo (n : nat) (X : list Z) :
  length X = n → foldl xor_prev (gray_encode n X) (downto 1 (n - 1)) = X.
Proof.
  intros Hn. unfold gray_encode. rewrite downto_rev.
  apply (foldl_undo (λ Y, length Y = n)); [|done].
  intros Y i Hi HY. apply elem_of_upto in Hi. split.
  - by rewrite xor_prev_length.
  - apply xor_prev_twice. lia.
Qed.

(** The chain walked downwards reads cells it has not written yet. *)
Lemma chain_down_lookup :
  ∀ (k : nat) (W : list Z) (i : nat),
    (k < length W)%nat →
    foldl xor_prev W (downto 1 k) !!! i
    = if decide (1 ≤ i ≤ k)%nat
      then Z.lxor (W !!! i) (W !!! (i - 1)%nat) else W !!! i.
Proof.
  induction k as [|k IH]; intros W i Hk.
  - simpl. by rewrite decide_False by lia.
  - rewrite downto_cons. simpl foldl.
    rewrite IH by (rewrite xor_prev_length; lia).
    rewrite !xor_prev_lookup by lia.
    repeat case_decide; first [done | exfalso; lia | repeat f_equal; lia].
Qed.

Lemma xor_all_lookup_prefix (t : Z) :
  ∀ (k : nat) (X : list Z) (i : nat),
    (k ≤ length X)%nat →
    foldl (xor_with t) X (upto 0 k) !!! i
    = if decide (i < k)%nat then Z.lxor (X !!! i) t else X !!! i.
Proof.
  induction k as [|k IH]; intros X i Hk.
  - case_decide; [lia | done].
  - rewrite upto_snoc, foldl_snoc. unfold xor_with at 1.
    rewrite list_lookup_total_insert, xor_all_length.
    rewrite !IH by lia.
    repeat case_decide; first [done | exfalso; lia | repeat f_equal; lia].
Qed.

Lemma xor_all_lookup (t : Z) (n : nat) (X : list Z) (i : nat) :
  length X = n → (i < n)%nat →
  foldl (xor_with t) X (upto 0 n) !!! i = Z.lxor (X !!! i) t.
Proof.
  intros Hn Hi. rewrite xor_all_lookup_prefix by lia.
  by rewrite decide_True by done.
Qed.

Lemma chain_fits (m : Z) (X : list Z) (l : list nat) :
  0 <= m → Forall (fits m) X → Forall (fits m) (foldl xor_prev X l).
Proof.
  intros Hm HX.
  apply (foldl_invariant (λ Y, length Y = length X ∧ Forall (fits m) Y));
    [done|].
  clear HX. intros Y i [Hlen HY]. split; [by rewrite xor_prev_length|].
  unfold xor_prev. destruct (decide (i < length Y)%nat) as [Hi|Hi].
  - apply Forall_insert; [done|].
    destruct (decide (i - 1 < length Y)%nat); [|lia].
    apply fits_lxor; [done|..]; by apply (Forall_lookup_total_1 (fits m)).
  - by rewrite list_insert_ge by lia.
Qed.

Lemma xor_all_fits (m t : Z) (X : list Z) (l : list nat) :
  0 <= m → fits m t → Forall (fits m) X →
  Forall (fits m) (foldl (xor_with t) X l).
Proof.
  intros Hm Ht HX.
  apply (foldl_invariant (λ Y, Forall (fits m) Y)); [done|].
  clear HX. intros Y i HY.
  unfold xor_with. destruct (decide (i < length Y)%nat) as [Hi|Hi].
  - apply Forall_insert; [done|].
    apply fits_lxor; [done| |done]. by apply (Forall_lookup_total_1 (fits m)).
  - by rewrite list_insert_ge by lia.
Qed.

(** ** The correction [t] *)

Lemma gray_mask_step_lxor (x t : Z) (k : nat) :
  gray_mask_step x t k = Z.lxor t (gray_mask_step x 0 k).
Proof.
  unfold gray_mask_step. destruct (Z.testbit x (Z.of_nat k)).
  - by rewrite Z.lxor_0_l.
  - by rewrite Z.lxor_0_r.
Qed.

Lemma gray_mask_acc (x : Z) (l : list nat) :
  ∀ t, foldl (gray_mask_step x) t l
       = Z.lxor t (foldl (gray_mask_step x) 0 l).
Proof.
  induction l as [|k l IH]; intros t; simpl.
  - by rewrite Z.lxor_0_r.
  - rewrite (IH (gray_mask_step x t k)), (IH (gray_mask_step x 0 k)).
    rewrite (gray_mask_step_lxor x t k). apply Z.lxor_assoc.
Qed.

Lemma gray_mask_S (q : nat) (x : Z) :
  gray_mask (S q) x = Z.lxor (gray_mask_step x 0 (S q)) (gray_mask q x).
Proof. unfold gray_mask. rewrite downto_cons. simpl. apply gray_mask_acc. Qed.

Lemma gray_mask_step_fits (x : Z) (k : nat) :
  fits (Z.of_nat k) (gray_mask_step x 0 k).
Proof.
  unfold gray_mask_step. destruct (Z.testbit x (Z.of_nat k)).
  - rewrite Z.lxor_0_l. apply fits_low_mask. lia.
  - apply fits_0. lia.
Qed.

Lemma gray_mask_fits (q : nat) (x : Z) : fits (Z.of_nat q) (gray_mask q x).
Proof.
  induction q as [|q IH].
  - by apply fits_0.
  - rewrite gray_mask_S. apply fits_lxor; [lia|..].
    + apply gray_mask_step_fits.
    + apply (fits_mono (Z.of_nat q)); [lia | done].
Qed.

Lemma gray_mask_step_bits (x : Z) (k : nat) (j : Z) :
  0 <= j →
  Z.testbit (gray_mask_step x 0 k) j
  = Z.testbit x (Z.of_nat k) && (j <? Z.of_nat k).
Proof.
  intros Hj. unfold gray_mask_step. destruct (Z.testbit x (Z.of_nat k)).
  - rewrite Z.lxor_0_l, low_mask_ones. apply Z.testbit_ones_nonneg; lia.
  - apply Z.bits_0.
Qed.

(** Shifting [x ^ t] right by one gives [t] back, up to the bits of [x] above
    the planes: [t] is the Gray decode mask of the low [q + 1] bits of [x]. *)
Lemma gray_mask_shift (q : nat) (x : Z) :
  Z.shiftr (Z.lxor x (gray_mask q x)) 1
  = Z.lxor (gray_mask q x)
      (Z.shiftl (Z.shiftr x (Z.of_nat q + 1)) (Z.of_nat q)).
Proof.
  induction q as [|q IH].
  - unfold gray_mask. simpl. rewrite Z.lxor_0_r, Z.lxor_0_l.
    by rewrite Z.shiftl_0_r.
  - rewrite gray_mask_S.
    rewrite (Z.lxor_comm (gray_mask_step x 0 (S q))), <- Z.lxor_assoc.
    rewrite Z.shiftr_lxor, IH. rewrite !Z.lxor_assoc. f_equal.
    apply Z.bits_inj'. intros j Hj.
    rewrite !Z.lxor_spec, !Z.shiftl_spec by lia.
    rewrite (Z.shiftr_spec _ 1 j) by lia.
    rewrite !gray_mask_step_bits by lia.
    rewrite Nat2Z.inj_succ.
    destruct (Z.lt_trichotomy j (Z.of_nat q)) as [Hlt|[->|Hgt]].
    + rewrite !(Z.testbit_neg_r _ (j - _)) by lia.
      rewrite !(proj2 (Z.ltb_lt _ _)) by lia.
      by rewrite xorb_false_l, xorb_false_r.
    + rewrite Z.sub_diag, Z.shiftr_spec by lia.
      rewrite (Z.testbit_neg_r _ (_ - _)) by lia.
      rewrite (proj2 (Z.ltb_ge _ _)) by lia.
      rewrite (proj2 (Z.ltb_lt _ _)) by lia.
      replace (0 + (Z.of_nat q + 1)) with (Z.succ (Z.of_nat q)) by lia.
      by destruct (Z.testbit x (Z.succ (Z.of_nat q))).
    + rewrite !Z.shiftr_spec by lia.
      rewrite !(proj2 (Z.ltb_ge _ _)) by lia.
      rewrite !andb_false_r, xorb_false_r, xorb_false_l. f_equal. lia.
Qed.

Lemma gray_mask_decodes (q : nat) (x : Z) :
  fits (Z.of_nat q + 1) x →
  Word.shr (Z.lxor x (gray_mask q x)) 1 = gray_mask q x.
Proof.
  intros [Hx0 Hx]. unfold Word.shr. rewrite gray_mask_shift.
  rewrite (Z.shiftr_div_pow2 x) by lia.
  rewrite Z.div_small by lia.
  by rewrite Z.shiftl_0_l, Z.lxor_0_r.
Qed.

(** ** Gray decode after Gray encode *)

Lemma gray_decode_encode (n q : nat) (Y : list Z) :
  (1 ≤ n)%nat → length Y = n →
  fits (Z.of_nat q + 1) (gray_encode n Y !!! (n - 1)%nat) →
  gray_decode n
    (foldl (xor_with (gray_mask q (gray_encode n Y !!! (n - 1)%nat)))
       (gray_encode n Y) (upto 0 n))
  = Y.
Proof.
  intros Hn HlenY Hfits.
  assert (HY : ∀ j, Y !!! j
                    = if decide (1 ≤ j ≤ n - 1)%nat
                      then Z.lxor (gray_encode n Y !!! j)
                             (gray_encode n Y !!! (j - 1)%nat)
                      else gray_encode n Y !!! j).
  { intros j. rewrite <- chain_down_lookup
      by (unfold gray_encode; rewrite chain_length; lia).
    by rewrite gray_encode_undo. }
  set (G := gray_encode n Y) in *.
  assert (HlenG : length G = n).
  { subst G. unfold gray_encode. by rewrite chain_length. }
  set (t := gray_mask q (G !!! (n - 1)%nat)).
  set (E := foldl (xor_with t) G (upto 0 n)).
  assert (HlenE : length E = n) by (subst E; by rewrite xor_all_length).
  assert (HE : ∀ j, (j < n)%nat → E !!! j = Z.lxor (G !!! j) t).
  { intros j Hj. subst E. by apply xor_all_lookup. }
  unfold gray_decode. rewrite (HE (n - 1)%nat) by lia.
  subst t. rewrite gray_mask_decodes by done.
  set (t := gray_mask q (G !!! (n - 1)%nat)) in *.
  apply list_eq_total; [by rewrite length_insert, chain_length; lia|].
  rewrite length_insert, chain_length, HlenE. intros j Hj.
  rewrite list_lookup_total_insert, chain_length, HlenE.
  rewrite !chain_down_lookup by lia. rewrite (HY j).
  repeat case_decide; try (exfalso; lia).
  - replace j with 0%nat by lia. rewrite HE by lia. apply lxor_cancel_r.
  - rewrite !HE by lia. apply lxor_cancel_both.
Qed.

(** ** Ranges *)

Lemma coords_fits (b n : nat) (X : list Z) :
  coords b n X ↔ length X = n ∧ Forall (fits (Z.min (Z.of_nat b) 32)) X.
Proof.
  unfold coords. apply and_iff_compat_l. apply Forall_iff. intros x.
  unfold Word.ok, Word.width, fits.
  destruct (Z.min_spec (Z.of_nat b) 32) as [[Hlt ->]|[Hge ->]].
  - assert (2 ^ Z.of_nat b <= 2 ^ 32) by (apply Z.pow_le_mono_r; lia). lia.
  - assert (2 ^ 32 <= 2 ^ Z.of_nat b) by (apply Z.pow_le_mono_r; lia). lia.
Qed.

Lemma elem_of_upto_0 (n i : nat) : i ∈ upto 0 n → (i < n)%nat.
Proof. rewrite elem_of_upto. lia. Qed.

Lemma elem_of_downto_0 (n i : nat) : i ∈ downto 0 n → (i < n)%nat.
Proof. rewrite elem_of_downto. lia. Qed.

(** [AxestoTranspose] keeps [m]-bit cells [m]-bit when its planes are below
    [m]. *)
Lemma AxestoTranspose_fits (m : Z) (X : list Z) (b n : nat) :
  (1 ≤ b)%nat → Z.of_nat (planes_down b) <= m → length X = n →
  Forall (fits m) X →
  ∃ Y, AxestoTranspose X b n = Some Y ∧ length Y = n ∧ Forall (fits m) Y.
Proof.
  intros Hb Hm Hlen HX. rewrite AxestoTranspose_eq by done.
  eexists. split; [done|]. cbv zeta. split.
  - unfold gray_encode.
    by rewrite xor_all_length, chain_length, planes_length.
  - apply xor_all_fits; [lia| |].
    + apply (fits_mono (Z.of_nat (planes_down b))); [lia|].
      apply gray_mask_fits.
    + apply chain_fits; [lia|]. apply planes_fits; [| |done].
      * intros k Hk. apply elem_of_downto in Hk. lia.
      * intros i Hi. apply elem_of_upto_0 in Hi. lia.
Qed.

Lemma gray_decode_length (n : nat) (X : list Z) :
  length (gray_decode n X) = length X.
Proof. unfold gray_decode. by rewrite length_insert, chain_length. Qed.

Lemma gray_decode_fits (m : Z) (n : nat) (X : list Z) :
  0 <= m → (1 ≤ n)%nat → length X = n →
  Forall (fits m) X → Forall (fits m) (gray_decode n X).
Proof.
  intros Hm Hn Hlen HX. unfold gray_decode.
  assert (HD : Forall (fits m) (foldl xor_prev X (downto 1 (n - 1))))
    by (by apply chain_fits).
  apply Forall_insert; [done|].
  apply fits_lxor; [done|..].
  - apply (Forall_lookup_total_1 (fits m)); [done|].
    rewrite chain_length. lia.
  - apply fits_shiftr; [done|].
    apply (Forall_lookup_total_1 (fits m)); [done|lia].
Qed.

Lemma TransposetoAxes_fits (m : Z) (X : list Z) (b n : nat) :
  (1 ≤ b)%nat → (1 ≤ n)%nat → Z.of_nat (planes_up b) <= m → length X = n →
  Forall (fits m) X →
  ∃ Y, TransposetoAxes X b n = Some Y ∧ length Y = n ∧ Forall (fits m) Y.
Proof.
  intros Hb Hn Hm Hlen HX. rewrite TransposetoAxes_eq by done.
  eexists. split; [done|]. split.
  - by rewrite planes_length, gray_decode_length.
  - apply planes_fits.
    + intros k Hk. apply elem_of_upto in Hk. lia.
    + intros i Hi. apply elem_of_downto_0 in Hi.
      rewrite gray_decode_length. lia.
    + apply gray_decode_fits; [lia|done..].
Qed.

Lemma planes_down_le (b : nat) :
  Z.of_nat (planes_down b) <= Z.min (Z.of_nat b) 32.
Proof. unfold planes_down. destruct (Nat.leb_spec b 32); lia. Qed.

Lemma planes_up_le (b : nat) :
  Z.of_nat (planes_up b) <= Z.min (Z.of_nat b) 32.
Proof. unfold planes_up. lia. Qed.

(** C8: for every [n >= 1], [b >= 1] and every vector of [n] coordinates in
    [0, 2^b - 1], both transforms return, and every entry of the vector they
    leave is again in [0, 2^b - 1]. *)
Theorem transforms_keep_range (X : list Z) (b n : nat) :
  (1 ≤ n)%nat → (1 ≤ b)%nat → coords b n X →
  (∃ Y, AxestoTranspose X b n = Some Y ∧ coords b n Y) ∧
  (∃ Y, TransposetoAxes X b n = Some Y ∧ coords b n Y).
Proof.
  intros Hn Hb [Hlen HX]%coords_fits. split.
  - destruct (AxestoTranspose_fits _ X b n Hb (planes_down_le b) Hlen HX)
      as (Y & HY & HlenY & HfitsY).
    exists Y. split; [done|]. by apply coords_fits.
  - destruct (TransposetoAxes_fits _ X b n Hb Hn (planes_up_le b) Hlen HX)
      as (Y & HY & HlenY & HfitsY).
    exists Y. split; [done|]. by apply coords_fits.
Qed.

Lemma transforms_keep_range_witness :
  (∃ Y, AxestoTranspose [5; 10; 20] 5 3 = Some Y ∧ coords 5 3 Y) ∧
  (∃ Y, TransposetoAxes [10; 14; 27] 5 3 = Some Y ∧ coords 5 3 Y).
Proof.
  assert (H1 : coords 5 3 [5; 10; 20]).
  { split; [done|]. repeat constructor; by vm_compute. }
  assert (H2 : coords 5 3 [10; 14; 27]).
  { split; [done|]. repeat constructor; by vm_compute. }
  split.
  - apply (transforms_keep_range [5; 10; 20] 5 3); [lia | lia | exact H1].
  - apply (transforms_keep_range [10; 14; 27] 5 3); [lia | lia | exact H2].
Defined.

(** ** There and back *)

Lemma planes_down_up (b : nat) : (b ≤ 32)%nat → planes_up b = planes_down b.
Proof.
  intros Hb. unfold planes_up, planes_down.
  destruct (Nat.leb_spec b 32); lia.
Qed.

(** [TransposetoAxes] undoes [AxestoTranspose] on [b]-bit cells, as long as
    the [b] bits fit the word. *)
Lemma there_and_back_fits (X : list Z) (b n : nat) :
  (1 ≤ n)%nat → (1 ≤ b ≤ 32)%nat → length X = n →
  Forall (fits (Z.of_nat b)) X →
  there_and_back X b n = Some X.
Proof.
  intros Hn Hb Hlen HX. unfold there_and_back.
  rewrite AxestoTranspose_eq by lia. simpl.
  rewrite TransposetoAxes_eq by lia. f_equal.
  rewrite planes_down_up by lia.
  assert (Hq : planes_down b = (b - 1)%nat).
  { unfold planes_down. destruct (Nat.leb_spec b 32); lia. }
  set (Y := foldl (plane (upto 0 n)) X (downto 1 (planes_down b))).
  assert (HlenY : length Y = n) by (subst Y; by rewrite planes_length).
  rewrite gray_decode_encode; [by apply planes_undo | done | done |].
  apply (Forall_lookup_total_1 (fits (Z.of_nat (planes_down b) + 1))).
  - replace (Z.of_nat (planes_down b) + 1) with (Z.of_nat b) by lia.
    apply chain_fits; [lia|]. apply planes_fits; [| |done].
    + intros k Hk. apply elem_of_downto in Hk. lia.
    + intros i Hi. apply elem_of_upto_0 in Hi. lia.
  - unfold gray_encode. rewrite chain_length. lia.
Qed.

(** *** The other way round *)

Lemma plane_undo_up (n : nat) (X : list Z) (k : nat) :
  length X = n → plane (upto 0 n) (plane (downto 0 n) X k) k = X.
Proof.
  intros Hn. unfold plane. rewrite (upto_rev 0 n).
  apply (foldl_undo (λ Y, length Y = n)); [|done].
  intros Y i Hi HY. apply elem_of_downto_0 in Hi. split.
  - by rewrite invert_or_exchange_length.
  - apply invert_or_exchange_twice. lia.
Qed.

Lemma planes_undo_up (n q : nat) (X : list Z) :
  length X = n →
  foldl (plane (upto 0 n)) (foldl (plane (downto 0 n)) X (upto 1 q)) (downto 1 q)
  = X.
Proof.
  intros Hn. rewrite (downto_rev 1 q).
  apply (foldl_undo (λ Y, length Y = n)); [|done].
  intros Y k _ HY. split.
  - by rewrite plane_length.
  - by apply plane_undo_up.
Qed.

(** The chain walked upwards undoes the chain walked downwards. *)
Lemma chain_down_undo (n : nat) (X : list Z) :
  length X = n → gray_encode n (foldl xor_prev X (downto 1 (n - 1))) = X.
Proof.
  intros Hn. unfold gray_encode. rewrite (upto_rev 1 (n - 1)).
  apply (foldl_undo (λ Y, length Y = n)); [|done].
  intros Y i Hi HY. apply elem_of_downto in Hi. split.
  - by rewrite xor_prev_length.
  - apply xor_prev_twice. lia.
Qed.

(** The correction computed from a Gray code [z ^ (z >> 1)]: bit [j] is the
    parity of the bits [j+1 .. q] of the code, which telescopes. *)
Lemma gray_mask_of_gray_bits (z : Z) (q : nat) (j : Z) :
  0 <= j →
  Z.testbit (gray_mask q (Z.lxor z (Z.shiftr z 1))) j
  = (j <? Z.of_nat q)
    && xorb (Z.testbit z (j + 1)) (Z.testbit z (Z.of_nat q + 1)).
Proof.
  intros Hj. induction q as [|q IH].
  - unfold gray_mask. simpl. rewrite Z.bits_0.
    by rewrite (proj2 (Z.ltb_ge _ _)) by lia.
  - rewrite gray_mask_S, Z.lxor_spec, IH, gray_mask_step_bits by lia.
    rewrite Z.lxor_spec, Z.shiftr_spec by lia.
    rewrite Nat2Z.inj_succ.
    replace (Z.succ (Z.of_nat q) + 1) with (Z.of_nat q + 2) by lia.
    replace (Z.succ (Z.of_nat q)) with (Z.of_nat q + 1) by lia.
    destruct (Z.lt_trichotomy j (Z.of_nat q)) as [Hlt|[->|Hgt]].
    + rewrite !(proj2 (Z.ltb_lt _ _)) by lia.
      destruct (Z.testbit z (j + 1)), (Z.testbit z (Z.of_nat q + 1)),
        (Z.testbit z (Z.of_nat q + 1 + 1)) eqn:E;
        replace (Z.of_nat q + 1 + 1) with (Z.of_nat q + 2) in E by lia;
        by rewrite E.
    + rewrite Z.ltb_irrefl, (proj2 (Z.ltb_lt _ _)) by lia.
      replace (Z.of_nat q + 1 + 1) with (Z.of_nat q + 2) by lia.
      by rewrite andb_true_r, andb_false_l, xorb_false_r.
    + rewrite !(proj2 (Z.ltb_ge _ _)) by lia.
      by rewrite andb_false_r.
Qed.

Lemma gray_mask_of_gray (z : Z) (q : nat) :
  fits (Z.of_nat q + 1) z →
  gray_mask q (Z.lxor z (Word.shr z 1)) = Word.shr z 1.
Proof.
  intros Hz. unfold Word.shr. apply Z.bits_inj'. intros j Hj.
  rewrite gray_mask_of_gray_bits, Z.shiftr_spec by done.
  rewrite (testbit_above (Z.of_nat q + 1) z (Z.of_nat q + 1)) by (done || lia).
  rewrite xorb_false_r.
  destruct (Z.ltb_spec j (Z.of_nat q)) as [Hlt|Hge]; [done|].
  symmetry. apply (testbit_above (Z.of_nat q + 1)); [lia | done | lia].
Qed.

Lemma gray_encode_decode (n q : nat) (E : list Z) :
  (1 ≤ n)%nat → length E = n →
  fits (Z.of_nat q + 1) (E !!! (n - 1)%nat) →
  foldl (xor_with
           (gray_mask q (gray_encode n (gray_decode n E) !!! (n - 1)%nat)))
    (gray_encode n (gray_decode n E)) (upto 0 n)
  = E.
Proof.
  intros Hn Hlen Hfits.
  set (s := Word.shr (E !!! (n - 1)%nat) 1).
  set (Es := foldl (xor_with s) E (upto 0 n)).
  assert (HlenEs : length Es = n) by (subst Es; by rewrite xor_all_length).
  assert (HEs : ∀ j, (j < n)%nat → Es !!! j = Z.lxor (E !!! j) s).
  { intros j Hj. subst Es. by apply xor_all_lookup. }
  assert (HD : gray_decode n E = foldl xor_prev Es (downto 1 (n - 1))).
  { unfold gray_decode. fold s.
    apply list_eq_total; [by rewrite length_insert, !chain_length; lia|].
    rewrite length_insert, chain_length, Hlen. intros j Hj.
    rewrite list_lookup_total_insert, chain_length, Hlen.
    rewrite !chain_down_lookup by lia.
    repeat case_decide; try (exfalso; lia).
    - replace j with 0%nat by lia. by rewrite HEs by lia.
    - rewrite !HEs by lia. by rewrite lxor_cancel_both. }
  rewrite HD, chain_down_undo by done.
  rewrite HEs by lia. subst s.
  rewrite gray_mask_of_gray by done.
  apply list_eq_total; [rewrite xor_all_length; lia|].
  rewrite xor_all_length, HlenEs. intros j Hj.
  rewrite xor_all_lookup, HEs by done.
  apply lxor_cancel_r.
Qed.

(** [AxestoTranspose] undoes [TransposetoAxes] as well. *)
Lemma back_and_there_fits (X : list Z) (b n : nat) :
  (1 ≤ n)%nat → (1 ≤ b ≤ 32)%nat → length X = n →
  Forall (fits (Z.of_nat b)) X →
  back_and_there X b n = Some X.
Proof.
  intros Hn Hb Hlen HX. unfold back_and_there.
  rewrite TransposetoAxes_eq by lia. simpl.
  rewrite AxestoTranspose_eq by lia. f_equal. cbv zeta.
  rewrite planes_down_up by lia.
  rewrite planes_undo_up by (by rewrite gray_decode_length).
  apply gray_encode_decode; [done..|].
  replace (Z.of_nat (planes_down b) + 1) with (Z.of_nat b).
  - apply (Forall_lookup_total_1 (fits (Z.of_nat b))); [done|lia].
  - unfold planes_down. destruct (Nat.leb_spec b 32); lia.
Qed.

(** C1, as the code has it: for every [n >= 1], every [b] from 1 to 32 (the
    width of [coord_t]) and every vector of [n] coordinates in [0, 2^b - 1],
    [AxestoTranspose] returns a vector on which [TransposetoAxes], with the
    same [b] and [n], returns the original vector; the same holds with the two
    transforms exchanged, so they are mutually inverse on such vectors. *)
Theorem axes_transpose_round_trip (X : list Z) (b n : nat) :
  (1 ≤ n)%nat → (1 ≤ b ≤ 32)%nat → coords b n X →
  (∃ T, AxestoTranspose X b n = Some T ∧ TransposetoAxes T b n = Some X) ∧
  (∃ A, TransposetoAxes X b n = Some A ∧ AxestoTranspose A b n = Some X).
Proof.
  intros Hn Hb [Hlen HX]%coords_fits.
  rewrite Z.min_l in HX by lia. split.
  - pose proof (there_and_back_fits X b n Hn Hb Hlen HX) as Hback.
    unfold there_and_back in Hback.
    destruct (AxestoTranspose X b n) as [T|]; [|done].
    by exists T.
  - pose proof (back_and_there_fits X b n Hn Hb Hlen HX) as Hback.
    unfold back_and_there in Hback.
    destruct (TransposetoAxes X b n) as [A|]; [|done].
    by exists A.
Qed.

Lemma axes_transpose_round_trip_witness :
  (∃ T, AxestoTranspose [5; 10; 20] 5 3 = Some T
        ∧ TransposetoAxes T 5 3 = Some [5; 10; 20]) ∧
  (∃ A, TransposetoAxes [5; 10; 20] 5 3 = Some A
        ∧ AxestoTranspose A 5 3 = Some [5; 10; 20]).
Proof.
  assert (H1 : coords 5 3 [5; 10; 20]).
  { split; [done|]. repeat constructor; by vm_compute. }
  apply (axes_transpose_round_trip [5; 10; 20] 5 3); [lia | lia | exact H1].
Defined.

(** C1, as the specification words it (every [b >= 1]), fails once [b]
    exceeds the width of the word: with [b = 33] and [n = 2] the vector
    [(2, 0)] comes back as [(3, 1)]. *)
Lemma round_trip_beyond_word_width :
  (1 ≤ 2)%nat ∧ (1 ≤ 33)%nat ∧ coords 33 2 [2; 0] ∧
  there_and_back [2; 0] 33 2 = Some [3; 1] ∧
  ¬ (∃ T, AxestoTranspose [2; 0] 33 2 = Some T
          ∧ TransposetoAxes T 33 2 = Some [2; 0]).
Proof.
  split; [lia|]. split; [lia|]. split.
  { split; [done|]. repeat constructor; by vm_compute. }
  split; [by vm_compute|].
  intros (T & HT & Hback).
  assert (HT' : AxestoTranspose [2; 0] 33 2 = Some [2; 2]) by (by vm_compute).
  rewrite HT' in HT. injection HT as <-.
  vm_compute in Hback. discriminate Hback.
Qed.

(** The failure beyond the word width does not hinge on the value given to
    the shifts [1 << 32] and [2 << 32]: whether the bit is lost ([M = 0],
    [N = 0]) or the shift count is taken modulo 32 as some processors do
    ([M = 1], [N = 2]), the bodies of the two transforms do not bring
    [(2, 0)] back. *)
Lemma beyond_word_width_any_shift (M N : Z) :
  M ∈ [0; 1] → N ∈ [0; 2] →
  (X ← inverse_undo M 2 [2; 0];
   t ← correction M 2 (gray_encode 2 X);
   undo_excess N 2
     (gray_decode 2 (foldl (xor_with t) (gray_encode 2 X) (upto 0 2))))
  ≠ Some [2; 0].
Proof.
  intros HM HN.
  repeat (apply elem_of_cons in HM as [->|HM]);
    [| |by apply elem_of_nil in HM];
    (repeat (apply elem_of_cons in HN as [->|HN]);
     [| |by apply elem_of_nil in HN]);
    by vm_compute.
Qed.

(** The run of [main]: transpose, code, unpacked transpose, axes. *)
Example main_run :
  main_trace = Some ([10; 14; 27], 7865, [10; 14; 27], [5; 10; 20]).
Proof. by vm_compute. Qed.

(** ** One dimension *)











(** ** Three dimensions: the case the (un)interleaving was written for *)

Lemma spread_S (K : nat) (x : Z) :
  spread (S K) x
  = Z.lor (spread K x)
      (Word.shl (Z.land x (Word.wrap (andbit_at K))) (Z.of_nat (2 * K))).
Proof. unfold spread. by rewrite upto_snoc, foldl_snoc. Qed.

Lemma unpacked_S (code : Z) (j K : nat) :
  unpacked code j (S K) = Z.lor (unpacked code j K) (picked code K j).
Proof. unfold unpacked. by rewrite upto_snoc, foldl_snoc. Qed.

(** The loop of line 100 on an array of three cells. *)
Lemma spread_loop_3 (x0 x1 x2 : Z) (K : nat) :
  foldl (λ '(s, andbit) k,
           let i := (2 * k)%nat in
           (foldl (spread_bit andbit i) s (upto 0 3),
            Word.to_int (Z.shiftl andbit 1)))
        ({| st_X := [x0; x1; x2]; st_coden := [0; 0; 0] |}, 1) (upto 0 K)
  = ({| st_X := [x0; x1; x2];
        st_coden := [spread K x0; spread K x1; spread K x2] |},
     andbit_at K).
Proof.
  induction K as [|K IH]; [done|].
  rewrite (upto_snoc 0 K), foldl_snoc, IH, !spread_S. done.
Qed.

Lemma iterations_of_line_100 (b : nat) : ((2 * b + 1) / 2 = b)%nat.
Proof.
  rewrite (Nat.mul_comm 2 b), Nat.div_add_l by lia.
  by rewrite Nat.add_0_r.
Qed.

Lemma interleaveBits_3 (x0 x1 x2 : Z) (b : nat) :
  interleaveBits [x0; x1; x2] b 3
  = Word.to_int
      (Z.lor
         (Word.wrap
            (Word.to_int
               (Z.lor (Word.wrap (Word.to_int (Word.shl (spread b x0) 2)))
                  (Word.shl (spread b x1) 1))))
         (Word.shl (spread b x2) 0)).
Proof.
  unfold interleaveBits, interleaveBits_run.
  rewrite iterations_of_line_100.
  change (foldl _ {| st_X := [x0; x1; x2]; st_coden := malloc 3 |} (upto 0 3))
    with {| st_X := [x0; x1; x2]; st_coden := [0; 0; 0] |}.
  by rewrite spread_loop_3.
Qed.

(** The loops of lines 123-132 on an array of three cells. *)
Lemma unpack_loop_3 (code : Z) (K : nat) :
  foldl (λ X i,
           let selector := 1 in
           let shift_selector := Word.mul 3 (Z.of_nat i) in
           let shiftback := Word.mul 2 (Z.of_nat i) in
           foldl (λ X j,
                    <[(3 - j - 1)%nat :=
                        Z.lor (X !!! (3 - j - 1)%nat)
                          (Word.shr
                             (Z.land code
                                (Word.shl selector
                                   (Word.add shift_selector (Z.of_nat j))))
                             (Word.add shiftback (Z.of_nat j)))]> X)
                 X (upto 0 3))
        [0; 0; 0] (upto 0 K)
  = [unpacked code 2 K; unpacked code 1 K; unpacked code 0 K].
Proof.
  induction K as [|K IH]; [done|].
  rewrite (upto_snoc 0 K), foldl_snoc, IH, !unpacked_S. done.
Qed.

Lemma uninterleaveBits_3 (X : list Z) (b : nat) (code : Z) :
  length X = 3%nat →
  uninterleaveBits X b 3 code
  = [unpacked code 2 (b + 1); unpacked code 1 (b + 1); unpacked code 0 (b + 1)].
Proof.
  intros Hlen. unfold uninterleaveBits.
  rewrite zero_fill by done. apply unpack_loop_3.
Qed.

Ltac compare_cases :=
  repeat match goal with
    | |- context [Z.ltb ?a ?b] => destruct (Z.ltb_spec a b)
    | |- context [Z.leb ?a ?b] => destruct (Z.leb_spec a b)
    | |- context [Z.eqb ?a ?b] => destruct (Z.eqb_spec a b)
    end.

Ltac bool_simpl :=
  rewrite ?andb_true_r, ?andb_false_r, ?orb_false_r, ?orb_true_r,
    ?andb_true_l, ?andb_false_l, ?orb_false_l, ?orb_true_l.

Ltac div3 := Z.div_mod_to_equations; lia.

Lemma wrap_to_int (z : Z) : Word.wrap (Word.to_int z) = Word.wrap z.
Proof.
  unfold Word.to_int. cbv zeta. destruct (_ <? _).
  - unfold Word.wrap. by rewrite Z.mod_mod.
  - unfold Word.wrap at 1.
    replace (Word.wrap z - 2 ^ Word.width)
      with (Word.wrap z + (-1) * 2 ^ Word.width) by lia.
    rewrite Z.mod_add by done. unfold Word.wrap. by rewrite Z.mod_mod.
Qed.

Lemma testbit_wrap (z p : Z) :
  0 <= p → Z.testbit (Word.wrap z) p = (p <? 32) && Z.testbit z p.
Proof. intros Hp. unfold Word.wrap. by apply Z.testbit_mod_pow2. Qed.

Lemma testbit_to_int (z p : Z) :
  0 <= p < 32 → Z.testbit (Word.to_int z) p = Z.testbit z p.
Proof.
  intros Hp. pose proof (f_equal (λ w, Z.testbit w p) (wrap_to_int z)) as H.
  simpl in H. rewrite !testbit_wrap in H by lia.
  by rewrite (proj2 (Z.ltb_lt p 32)) in H by lia.
Qed.

Lemma testbit_shl (x s p : Z) :
  0 <= s → 0 <= p →
  Z.testbit (Word.shl x s) p = (p <? 32) && Z.testbit x (p - s).
Proof.
  intros Hs Hp. unfold Word.shl.
  by rewrite testbit_wrap, Z.shiftl_spec by done.
Qed.

Lemma wrap_andbit (k : nat) :
  Word.wrap (andbit_at k) = Word.wrap (2 ^ Z.of_nat k).
Proof.
  induction k as [|k IH]; [done|].
  change (andbit_at (S k)) with (Word.to_int (Z.shiftl (andbit_at k) 1)).
  rewrite wrap_to_int, Z.shiftl_mul_pow2 by lia.
  rewrite Nat2Z.inj_succ, Z.pow_succ_r by lia.
  change (2 ^ 1) with 2. unfold Word.wrap in *.
  rewrite <- Z.mul_mod_idemp_l, IH, Z.mul_mod_idemp_l by done.
  f_equal. lia.
Qed.

Lemma testbit_wrap_pow2 (k : nat) (p : Z) :
  Z.testbit (Word.wrap (2 ^ Z.of_nat k)) p = (p <? 32) && (Z.of_nat k =? p).
Proof.
  destruct (Z.lt_ge_cases p 0) as [Hneg|Hp].
  - rewrite Z.testbit_neg_r by done. compare_cases; first [done | lia].
  - rewrite testbit_wrap, Z.pow2_bits_eqb by lia. done.
Qed.

(** Bit [k] of the coordinate is moved to position [3 k] of its scratch cell
    (the stride of the loop of line 100 is 2, so the shift is [2 k]). *)
Lemma spread_bits (x : Z) (K : nat) :
  ∀ p, 0 <= p →
    Z.testbit (spread K x) p
    = (p mod 3 =? 0) && (p / 3 <? Z.of_nat K) && (p <? 32)
      && Z.testbit x (p / 3).
Proof.
  induction K as [|K IH]; intros p Hp.
  - unfold spread. simpl. rewrite Z.bits_0.
    compare_cases; bool_simpl; first [done | div3].
  - rewrite spread_S, Z.lor_spec, IH by done.
    rewrite testbit_shl, Z.land_spec, wrap_andbit, testbit_wrap_pow2 by lia.
    destruct (decide (p = 3 * Z.of_nat K)) as [->|Hne].
    + replace (3 * Z.of_nat K - Z.of_nat (2 * K)) with (Z.of_nat K) by lia.
      replace (3 * Z.of_nat K / 3) with (Z.of_nat K) by div3.
      replace (3 * Z.of_nat K mod 3) with 0 by div3.
      compare_cases; bool_simpl; first [done | lia].
    + assert ((Z.of_nat K =? p - Z.of_nat (2 * K)) = false) as ->
        by (apply Z.eqb_neq; lia).
      bool_simpl.
      compare_cases; bool_simpl; first [done | div3].
Qed.

Lemma picked_bits (code : Z) (i j : nat) (p : Z) :
  3 * Z.of_nat i + Z.of_nat j < 2 ^ 32 → 0 <= p →
  Z.testbit (picked code i j) p
  = (p =? Z.of_nat i) && (3 * Z.of_nat i + Z.of_nat j <? 32)
    && Z.testbit code (3 * Z.of_nat i + Z.of_nat j).
Proof.
  intros Hsmall Hp. unfold picked.
  assert (H3 : Word.mul 3 (Z.of_nat i) = 3 * Z.of_nat i).
  { apply wrap_small. unfold Word.ok, Word.width. lia. }
  assert (H2 : Word.mul 2 (Z.of_nat i) = 2 * Z.of_nat i).
  { apply wrap_small. unfold Word.ok, Word.width. lia. }
  rewrite H3, H2.
  assert (Hs : Word.add (3 * Z.of_nat i) (Z.of_nat j)
               = Z.of_nat (3 * i + j)).
  { rewrite <- (wrap_small (Z.of_nat (3 * i + j))).
    - unfold Word.add. f_equal. lia.
    - unfold Word.ok, Word.width. lia. }
  assert (Ht : Word.add (2 * Z.of_nat i) (Z.of_nat j)
               = 2 * Z.of_nat i + Z.of_nat j).
  { apply wrap_small. unfold Word.ok, Word.width. lia. }
  rewrite Hs, Ht. unfold Word.shr, Word.shl.
  rewrite Z.shiftr_spec, Z.land_spec, Z.shiftl_1_l by done.
  rewrite testbit_wrap_pow2.
  destruct (decide (p = Z.of_nat i)) as [->|Hne].
  - replace (Z.of_nat i + (2 * Z.of_nat i + Z.of_nat j))
      with (3 * Z.of_nat i + Z.of_nat j) by lia.
    compare_cases; bool_simpl; first [done | lia].
  - compare_cases; bool_simpl; first [done | lia].
Qed.

(** Bit [i] of the unpacked cell is bit [3 i + j] of the code. *)
Lemma unpacked_bits (code : Z) (j K : nat) :
  3 * Z.of_nat K + Z.of_nat j < 2 ^ 32 →
  ∀ p, 0 <= p →
    Z.testbit (unpacked code j K) p
    = (p <? Z.of_nat K) && (3 * p + Z.of_nat j <? 32)
      && Z.testbit code (3 * p + Z.of_nat j).
Proof.
  induction K as [|K IH]; intros Hsmall p Hp.
  - unfold unpacked. simpl. rewrite Z.bits_0.
    compare_cases; bool_simpl; first [done | lia].
  - rewrite unpacked_S, Z.lor_spec, IH, picked_bits by lia.
    destruct (decide (p = Z.of_nat K)) as [->|Hne].
    + compare_cases; bool_simpl; first [done | lia].
    + compare_cases; bool_simpl; first [done | lia].
Qed.

Lemma spread_bits_total (x : Z) (K : nat) (p : Z) :
  Z.testbit (spread K x) p
  = (0 <=? p) && (p mod 3 =? 0) && (p / 3 <? Z.of_nat K) && (p <? 32)
    && Z.testbit x (p / 3).
Proof.
  destruct (Z.leb_spec 0 p) as [Hp|Hp].
  - by rewrite spread_bits.
  - by rewrite Z.testbit_neg_r.
Qed.

(** The interleaved code of three coordinates, bit by bit: position [p]
    holds bit [p / 3] of coordinate [2 - p mod 3], for the [b] bits packed and
    as far as the word reaches. *)
Lemma interleaveBits_3_bits (x0 x1 x2 : Z) (b : nat) (p : Z) :
  0 <= p →
  Z.testbit (Word.wrap (interleaveBits [x0; x1; x2] b 3)) p
  = (p <? 32) && (p / 3 <? Z.of_nat b)
    && Z.testbit ([x0; x1; x2] !!! Z.to_nat (2 - p mod 3)) (p / 3).
Proof.
  intros Hp. rewrite interleaveBits_3.
  rewrite !wrap_to_int, testbit_wrap, Z.lor_spec by done.
  rewrite testbit_wrap, Z.lor_spec by done.
  rewrite testbit_wrap by done.
  rewrite !testbit_shl, !spread_bits_total by lia.
  assert (Hr : p mod 3 = 0 ∨ p mod 3 = 1 ∨ p mod 3 = 2) by div3.
  destruct Hr as [Hr|[Hr|Hr]]; rewrite Hr; simpl lookup_total.
  - replace ((p - 2) mod 3) with 1 by div3.
    replace ((p - 1) mod 3) with 2 by div3.
    replace ((p - 0) mod 3) with 0 by div3.
    replace ((p - 0) / 3) with (p / 3) by div3.
    change (1 =? 0) with false. change (2 =? 0) with false.
    change (0 =? 0) with true. bool_simpl.
    compare_cases; bool_simpl; first [done | lia | exfalso; div3].
  - replace ((p - 2) mod 3) with 2 by div3.
    replace ((p - 1) mod 3) with 0 by div3.
    replace ((p - 0) mod 3) with 1 by div3.
    replace ((p - 1) / 3) with (p / 3) by div3.
    change (1 =? 0) with false. change (2 =? 0) with false.
    change (0 =? 0) with true. bool_simpl.
    compare_cases; bool_simpl; first [done | lia | exfalso; div3].
  - replace ((p - 2) mod 3) with 0 by div3.
    replace ((p - 1) mod 3) with 1 by div3.
    replace ((p - 0) mod 3) with 2 by div3.
    replace ((p - 2) / 3) with (p / 3) by div3.
    change (1 =? 0) with false. change (2 =? 0) with false.
    change (0 =? 0) with true. bool_simpl.
    compare_cases; bool_simpl; first [done | lia | exfalso; div3].
Qed.

(** For [n = 3] the code is the one the specification describes: with
    [3 b <= 32], the bit at position [k < 3 b] is bit [k div 3] of coordinate
    [2 - k mod 3]. *)
Lemma interleaveBits_three_dimensions (X : list Z) (b k : nat) :
  length X = 3%nat → (3 * b ≤ 32)%nat → (k < 3 * b)%nat →
  Z.testbit (interleaveBits X b 3) (Z.of_nat k) = spec_interleaved_bit X 3 k.
Proof.
  intros Hlen Hb Hk.
  destruct X as [|x0 [|x1 [|x2 [|? ?]]]]; try discriminate Hlen.
  pose proof (interleaveBits_3_bits x0 x1 x2 b (Z.of_nat k)) as H.
  rewrite testbit_wrap in H by lia.
  rewrite (proj2 (Z.ltb_lt (Z.of_nat k) 32)) in H by lia.
  rewrite (proj2 (Z.ltb_lt (Z.of_nat k / 3) (Z.of_nat b))) in H by div3.
  simpl andb in H. rewrite H by lia.
  unfold spec_interleaved_bit.
  rewrite Nat2Z.inj_div. change (Z.of_nat 3) with 3.
  do 2 f_equal. rewrite <- (Nat2Z.id (3 - 1 - k mod 3)).
  f_equal. pose proof (Nat.mod_upper_bound k 3).
  pose proof (Nat2Z.inj_mod k 3) as Hmod. change (Z.of_nat 3) with 3 in Hmod.
  lia.
Qed.

(** For [n = 3] unpacking undoes packing, as long as the [3 b] bits fit the
    word. *)
Lemma pack_unpack_three_dimensions (X : list Z) (b : nat) :
  (1 ≤ b)%nat → (3 * b ≤ 32)%nat → coords b 3 X → pack_unpack X b 3 = X.
Proof.
  intros Hb1 Hb [Hlen HX]%coords_fits.
  rewrite Z.min_l in HX by lia.
  unfold pack_unpack. rewrite uninterleaveBits_3 by done.
  apply list_eq_total; [done|].
  intros c Hc. simpl in Hc.
  assert (Hbits : ∀ j : nat, (j < 3)%nat →
            unpacked (Word.wrap (interleaveBits X b 3)) j (b + 1)
            = X !!! (2 - j)%nat).
  { intros j Hj. apply Z.bits_inj'. intros p Hp.
    rewrite unpacked_bits by (done || lia).
    destruct X as [|x0 [|x1 [|x2 [|? ?]]]]; try discriminate Hlen.
    rewrite interleaveBits_3_bits by lia.
    replace ((3 * p + Z.of_nat j) / 3) with p by div3.
    replace ((3 * p + Z.of_nat j) mod 3) with (Z.of_nat j) by div3.
    replace (Z.to_nat (2 - Z.of_nat j)) with (2 - j)%nat by lia.
    destruct (Z.ltb_spec p (Z.of_nat b)) as [Hlt|Hge].
    - rewrite !(proj2 (Z.ltb_lt _ _)) by lia. done.
    - rewrite (testbit_above (Z.of_nat b) _ p); [by bool_simpl|lia| |done].
      apply (Forall_lookup_total_1 (fits (Z.of_nat b))); [done|simpl; lia]. }
  destruct c as [|[|[|c]]]; [..|lia]; simpl lookup_total at 1;
    by rewrite Hbits by lia.
Qed.
(** * Further properties of the code *)

(** ** The interleaving in any dimension *)

Lemma store_zero_fill (X : list Z) (n : nat) :
  foldl (λ s i, set_coden s (<[i := 0]> (st_coden s)))
    {| st_X := X; st_coden := malloc n |} (upto 0 n)
  = {| st_X := X; st_coden := replicate n 0 |}.
Proof.
  apply (foldl_invariant
           (λ s, s = {| st_X := X; st_coden := replicate n 0 |})); [done|].
  intros s i ->. unfold set_coden. simpl. by rewrite insert_replicate.
Qed.

(** The loop of line 102 updates the scratch cells one by one. *)
Lemma spread_inner_prefix (a : Z) (i : nat) :
  ∀ (k : nat) (s : store),
    (k ≤ length (st_coden s))%nat →
    st_X (foldl (spread_bit a i) s (upto 0 k)) = st_X s ∧
    length (st_coden (foldl (spread_bit a i) s (upto 0 k)))
    = length (st_coden s) ∧
    ∀ j, st_coden (foldl (spread_bit a i) s (upto 0 k)) !!! j
         = if decide (j < k)%nat
           then Z.lor (st_coden s !!! j)
                  (Word.shl (Z.land (st_X s !!! j) (Word.wrap a)) (Z.of_nat i))
           else st_coden s !!! j.
Proof.
  induction k as [|k IH]; intros s Hk.
  - by repeat split.
  - destruct (IH s) as (HX & Hlen & Hcells); [lia|].
    rewrite (upto_snoc 0 k), foldl_snoc.
    set (s' := foldl (spread_bit a i) s (upto 0 k)) in *.
    unfold spread_bit at 1. unfold spread_bit at 1. unfold spread_bit at 1.
    simpl st_X. simpl st_coden. rewrite length_insert.
    repeat split; [done..|].
    intros j. rewrite list_lookup_total_insert, Hlen, HX, !Hcells.
    repeat case_decide; first [done | exfalso; lia | repeat f_equal; lia].
Qed.

(** The loop of line 100 in any dimension: after [K] iterations every scratch
    cell holds the spread bits of its coordinate. *)
Lemma spread_loop (X : list Z) (n : nat) (K : nat) :
  let r :=
    foldl (λ '(s, andbit) k,
             let i := (2 * k)%nat in
             (foldl (spread_bit andbit i) s (upto 0 n),
              Word.to_int (Z.shiftl andbit 1)))
          ({| st_X := X; st_coden := replicate n 0 |}, 1) (upto 0 K) in
  st_X r.1 = X ∧ length (st_coden r.1) = n ∧ r.2 = andbit_at K ∧
  ∀ j, (j < n)%nat → st_coden r.1 !!! j = spread K (X !!! j).
Proof.
  induction K as [|K IH]; cbv zeta in *.
  - simpl. repeat split; [by rewrite length_replicate|].
    intros j Hj. by rewrite lookup_total_replicate_2.
  - rewrite (upto_snoc 0 K), foldl_snoc.
    destruct (foldl _ _ (upto 0 K)) as [s a]. simpl in IH.
    destruct IH as (HX & Hlen & -> & Hcells). simpl fst. simpl snd.
    change (K + (K + 0))%nat with (2 * K)%nat.
    destruct (spread_inner_prefix (andbit_at K) (2 * K) n s)
      as (HX' & Hlen' & Hcells'); [lia|].
    repeat split; [congruence | congruence |].
    intros j Hj. rewrite Hcells', decide_True, Hcells, HX, spread_S by done.
    done.
Qed.

(** The loop of line 108 ors the shifted scratch cells into [res]. *)
Lemma merge_bits (n : nat) (c : list Z) (p : Z) :
  0 <= p →
  ∀ (l : list nat) (r : Z),
    Z.testbit (Word.wrap (foldl (merge n c) r l)) p
    = Z.testbit (Word.wrap r) p
      || existsb (λ j, Z.testbit
                         (Word.shl (c !!! j) (Z.of_nat n - Z.of_nat j - 1)) p)
           l.
Proof.
  intros Hp. induction l as [|j l IH]; intros r; simpl.
  - by rewrite orb_false_r.
  - rewrite IH. unfold merge.
    rewrite wrap_to_int, testbit_wrap, Z.lor_spec, testbit_wrap by done.
    rewrite orb_assoc. f_equal.
    destruct (p <? 32) eqn:Hlt; [done|].
    unfold Word.shl. rewrite testbit_wrap, Hlt by done. done.
Qed.

Lemma existsb_eq {A : Type} (f g : A → bool) (l : list A) :
  (∀ x, x ∈ l → f x = g x) → existsb f l = existsb g l.
Proof.
  induction l as [|x l IH]; intros H; [done|]. simpl.
  rewrite (H x) by (by left). rewrite IH; [done|].
  intros y Hy. apply H. by right.
Qed.

(** The code of [interleaveBits], bit by bit: the or over the coordinates of
    the spread bits shifted by [n - j - 1]. *)
Lemma interleaveBits_bits (X : list Z) (b n : nat) (p : Z) :
  (1 ≤ n)%nat → 0 <= p →
  Z.testbit (Word.wrap (interleaveBits X b n)) p
  = existsb
      (λ j, Z.testbit
              (Word.shl (spread b (X !!! j)) (Z.of_nat n - Z.of_nat j - 1)) p)
      (upto 0 n).
Proof.
  intros Hn Hp. unfold interleaveBits, interleaveBits_run.
  rewrite store_zero_fill, iterations_of_line_100.
  pose proof (spread_loop X n b) as Hloop. cbv zeta in Hloop.
  destruct (foldl _ _ (upto 0 b)) as [s a]. simpl in Hloop.
  destruct Hloop as (_ & Hlen & _ & Hcells). simpl snd.
  rewrite merge_bits, wrap_to_int by done.
  destruct n as [|n]; [lia|].
  change (upto 0 (S n)) with (0%nat :: upto 1 n).
  replace (S n - 1)%nat with n by lia. simpl existsb.
  rewrite Hcells by lia.
  replace (Z.of_nat (S n) - 1) with (Z.of_nat (S n) - Z.of_nat 0 - 1) by lia.
  f_equal.
  - unfold Word.shl, Word.wrap. by rewrite Z.mod_mod.
  - apply existsb_eq. intros j Hj. apply elem_of_upto in Hj.
    by rewrite Hcells by lia.
Qed.

Lemma shifted_spread_bit (x : Z) (b : nat) (s p : Z) :
  0 <= s → 0 <= p →
  Z.testbit (Word.shl (spread b x) s) p = true
  ↔ p < 32 ∧ ∃ k : nat, (k < b)%nat ∧ p = 3 * Z.of_nat k + s
                        ∧ Z.testbit x (Z.of_nat k) = true.
Proof.
  intros Hs Hp. rewrite testbit_shl, spread_bits_total by done.
  rewrite !andb_true_iff, !Z.ltb_lt, Z.leb_le, Z.eqb_eq. split.
  - intros (Hp32 & ((((Hq & Hmod) & Hdiv) & _) & Hbit)).
    split; [done|]. exists (Z.to_nat ((p - s) / 3)).
    assert (0 <= (p - s) / 3) by div3.
    rewrite Z2Nat.id by done. repeat split; [lia | div3 | done].
  - intros (Hp32 & k & Hk & -> & Hbit).
    replace (3 * Z.of_nat k + s - s) with (3 * Z.of_nat k) by lia.
    replace (3 * Z.of_nat k / 3) with (Z.of_nat k) by div3.
    repeat split; [done | lia | div3 | lia | lia | done].
Qed.

(** The code as an [unsigned int], bit by bit. *)
Lemma interleaved_code_bit (X : list Z) (b n : nat) (p : Z) :
  (1 ≤ n)%nat → 0 <= p →
  Z.testbit (Word.wrap (interleaveBits X b n)) p = true
  ↔ p < 32 ∧ ∃ j k : nat, (j < n)%nat ∧ (k < b)%nat
                          ∧ p = 3 * Z.of_nat k + Z.of_nat (n - 1 - j)
                          ∧ Z.testbit (X !!! j) (Z.of_nat k) = true.
Proof.
  intros Hn Hp.
  rewrite interleaveBits_bits, existsb_exists by lia. split.
  - intros (j & Hj & Hbit).
    apply list_elem_of_In, elem_of_upto in Hj.
    apply shifted_spread_bit in Hbit as (Hp32 & k & Hk & Hpos & Hbit);
      [|lia..].
    split; [done|]. exists j, k. repeat split; [lia | done | lia | done].
  - intros (Hp32 & j & k & Hj & Hk & Hpos & Hbit). exists j. split.
    + apply list_elem_of_In, elem_of_upto. lia.
    + apply shifted_spread_bit; [lia.. |]. split; [lia|].
      exists k. repeat split; [done | lia | done].
Qed.

(** X1. What [interleaveBits] computes in any dimension [n] from 1 to 32
    with [b <= 16], where every shift count of lines 104-110 stays below the
    width of the word ([i <= 2 b - 2 <= 30] and [n - j - 1 <= 31]): bit [p]
    of the code, [p] inside the word, is set exactly when some coordinate
    [j] has a bit [k < b] set with [p = 3 k + (n - 1 - j)].  The group
    stride is 3 whatever [n] is. *)
Theorem interleaveBits_layout (X : list Z) (b n : nat) (p : Z) :
  (1 ≤ n ≤ 32)%nat → (b ≤ 16)%nat → length X = n → 0 <= p < 32 →
  Z.testbit (interleaveBits X b n) p = true
  ↔ ∃ j k : nat, (j < n)%nat ∧ (k < b)%nat
                 ∧ p = 3 * Z.of_nat k + Z.of_nat (n - 1 - j)
                 ∧ Z.testbit (X !!! j) (Z.of_nat k) = true.
Proof.
  intros Hn _ _ Hp.
  assert (Hw : Z.testbit (interleaveBits X b n) p
               = Z.testbit (Word.wrap (interleaveBits X b n)) p).
  { rewrite testbit_wrap by lia. by rewrite (proj2 (Z.ltb_lt p 32)) by lia. }
  rewrite Hw, interleaved_code_bit by lia. split.
  - by intros (_ & H).
  - intros H. split; [lia | done].
Qed.

Lemma interleaveBits_layout_witness :
  Z.testbit (interleaveBits [2; 0] 2 2) 4 = true
  ↔ ∃ j k : nat, (j < 2)%nat ∧ (k < 2)%nat
                 ∧ 4 = 3 * Z.of_nat k + Z.of_nat (2 - 1 - j)
                 ∧ Z.testbit ([2; 0] !!! j) (Z.of_nat k) = true.
Proof.
  apply (interleaveBits_layout [2; 0] 2 2 4); [lia | lia | done | lia].
Defined.

(** ** The de-interleaving in any dimension *)

(** The loop of line 128 ors one picked bit into every cell. *)
Lemma unpack_inner_prefix (code : Z) (i n : nat) :
  ∀ (k : nat) (X : list Z),
    (k ≤ n)%nat → length X = n →
    let X' :=
      foldl (λ X j,
               <[(n - j - 1)%nat :=
                   Z.lor (X !!! (n - j - 1)%nat)
                     (Word.shr
                        (Z.land code
                           (Word.shl 1
                              (Word.add (Word.mul 3 (Z.of_nat i))
                                 (Z.of_nat j))))
                        (Word.add (Word.mul 2 (Z.of_nat i)) (Z.of_nat j)))]> X)
            X (upto 0 k) in
    length X' = n ∧
    ∀ c, (c < n)%nat →
         X' !!! c = if decide (n - 1 - c < k)%nat
                    then Z.lor (X !!! c) (picked code i (n - 1 - c))
                    else X !!! c.
Proof.
  induction k as [|k IH]; intros X Hk Hlen; cbv zeta.
  - split; [done|]. intros c Hc. by rewrite decide_False by lia.
  - destruct (IH X) as (Hlen' & Hcells); [lia | done |].
    rewrite (upto_snoc 0 k), foldl_snoc. rewrite length_insert.
    split; [done|]. intros c Hc.
    rewrite list_lookup_total_insert, Hlen', !Hcells by lia.
    unfold picked.
    repeat case_decide; first [done | exfalso; lia | repeat f_equal; lia].
Qed.

(** The loop of line 123: after [K] iterations cell [c] holds the bits
    picked for it. *)
Lemma unpack_loop (code : Z) (n : nat) (K : nat) :
  let R :=
    foldl (λ X i,
             let selector := 1 in
             let shift_selector := Word.mul 3 (Z.of_nat i) in
             let shiftback := Word.mul 2 (Z.of_nat i) in
             foldl (λ X j,
                      <[(n - j - 1)%nat :=
                          Z.lor (X !!! (n - j - 1)%nat)
                            (Word.shr
                               (Z.land code
                                  (Word.shl selector
                                     (Word.add shift_selector (Z.of_nat j))))
                               (Word.add shiftback (Z.of_nat j)))]> X)
                   X (upto 0 n))
          (replicate n 0) (upto 0 K) in
  length R = n ∧
  ∀ c, (c < n)%nat → R !!! c = unpacked code (n - 1 - c) K.
Proof.
  induction K as [|K IH]; cbv zeta in *.
  - split; [apply length_replicate|].
    intros c Hc. by apply (lookup_total_replicate_2 n 0 c).
  - destruct IH as (Hlen & Hcells).
    rewrite (upto_snoc 0 K), foldl_snoc. cbv beta.
    change (0 + K)%nat with K.
    destruct (unpack_inner_prefix code K n n _ (Nat.le_refl n) Hlen)
      as (Hlen' & Hcells').
    split; [exact Hlen'|]. intros c Hc.
    rewrite unpacked_S, <- Hcells by done.
    rewrite (Hcells' c Hc). by rewrite decide_True by lia.
Qed.

Lemma uninterleaveBits_cells (X : list Z) (b n : nat) (code : Z) :
  length X = n →
  length (uninterleaveBits X b n code) = n ∧
  ∀ c, (c < n)%nat →
       uninterleaveBits X b n code !!! c = unpacked code (n - 1 - c) (b + 1).
Proof.
  intros Hlen. unfold uninterleaveBits. rewrite zero_fill by done.
  apply unpack_loop.
Qed.

(** X2. What [uninterleaveBits] computes in any dimension [n] and for any
    [b] with [3 b + n <= 32], where both shift counts of line 130 stay below
    the width of the word ([3 i + j <= 3 b + n - 1 <= 31]): bit [i] of cell
    [c] is bit [3 i + (n - 1 - c)] of the code for the levels [i <= b] (one
    more than the [b] levels packed), and 0 above them. *)
Theorem uninterleaveBits_layout (X : list Z) (b n c : nat) (code i : Z) :
  length X = n → (c < n)%nat → (3 * b + n ≤ 32)%nat → 0 <= i →
  Z.testbit (uninterleaveBits X b n code !!! c) i
  = (i <=? Z.of_nat b) && Z.testbit code (3 * i + Z.of_nat (n - 1 - c)).
Proof.
  intros Hlen Hc Hsmall Hi.
  destruct (uninterleaveBits_cells X b n code Hlen) as (_ & Hcells).
  assert (3 * (Z.of_nat b + 1) + Z.of_nat n < 2 ^ 32)
    by (change (2 ^ 32) with 4294967296; lia).
  rewrite Hcells, unpacked_bits by lia.
  replace (Z.of_nat (b + 1)) with (Z.of_nat b + 1) by lia.
  destruct (Z.leb_spec i (Z.of_nat b)) as [Hle|Hgt].
  - rewrite (proj2 (Z.ltb_lt i (Z.of_nat b + 1))) by lia.
    by rewrite (proj2 (Z.ltb_lt _ 32)) by lia.
  - by rewrite (proj2 (Z.ltb_ge i (Z.of_nat b + 1))) by lia.
Qed.

Lemma uninterleaveBits_layout_witness :
  Z.testbit (uninterleaveBits [0; 0] 2 2 16 !!! 0%nat) 1
  = (1 <=? Z.of_nat 2) && Z.testbit 16 (3 * 1 + Z.of_nat (2 - 1 - 0)).
Proof.
  apply (uninterleaveBits_layout [0; 0] 2 2 0 16 1); [done | lia | lia | lia].
Defined.

(** ** Packing and unpacking up to three dimensions *)

Lemma testbit_fits (m x i : Z) :
  0 <= m → fits m x → Z.testbit x i = true → i < m.
Proof.
  intros Hm Hx Hbit. destruct (Z.lt_ge_cases i m) as [|Hge]; [done|].
  rewrite (testbit_above m x i) in Hbit by done. discriminate.
Qed.

Lemma pack_unpack_small (X : list Z) (b n : nat) :
  (1 ≤ n ≤ 3)%nat → (3 * b + n ≤ 35)%nat → length X = n →
  Forall (fits (Z.of_nat b)) X →
  pack_unpack X b n = X.
Proof.
  intros Hn Hb Hlen HX.
  unfold pack_unpack.
  destruct (uninterleaveBits_cells X b n
              (Word.wrap (interleaveBits X b n)) Hlen) as (HlenU & Hcells).
  apply list_eq_total; [lia|]. rewrite HlenU. intros c Hc.
  rewrite Hcells by done.
  assert (Hfit : fits (Z.of_nat b) (X !!! c))
    by (apply (Forall_lookup_total_1 (fits (Z.of_nat b))); [done|lia]).
  apply Z.bits_inj'. intros i Hi.
  rewrite unpacked_bits by lia.
  apply eq_true_iff_eq.
  rewrite !andb_true_iff, !Z.ltb_lt, interleaved_code_bit by lia. split.
  - intros ((Hib & _) & (_ & j & k & Hj & Hk & Hpos & Hbit)).
    assert (j = c) as -> by lia.
    assert (i = Z.of_nat k) as -> by lia. done.
  - intros Hbit.
    pose proof (testbit_fits _ _ _ (Nat2Z.is_nonneg b) Hfit Hbit) as Hib.
    repeat split; [lia | lia | lia |].
    exists c, (Z.to_nat i).
    rewrite Z2Nat.id by done. repeat split; first [done | lia].
Qed.

(** X3. For one, two or three dimensions [uninterleaveBits] undoes
    [interleaveBits] on [b]-bit vectors, as long as the highest position
    used, [3 (b - 1) + n - 1], is inside the 32-bit word. *)
Theorem pack_unpack_up_to_three (X : list Z) (b n : nat) :
  (1 ≤ n ≤ 3)%nat → (1 ≤ b)%nat → (3 * b + n ≤ 35)%nat → coords b n X →
  pack_unpack X b n = X.
Proof.
  intros Hn Hb1 Hb [Hlen HX]%coords_fits.
  rewrite Z.min_l in HX by lia. by apply pack_unpack_small.
Qed.

Lemma pack_unpack_up_to_three_witness : pack_unpack [5; 2] 3 2 = [5; 2].
Proof.
  assert (H : coords 3 2 [5; 2]).
  { split; [done|]. repeat constructor; by vm_compute. }
  apply (pack_unpack_up_to_three [5; 2] 3 2); [lia | lia | lia | exact H].
Defined.

(** ** Ranges of the packed and unpacked values *)

Lemma picked_nonneg (code : Z) (i j : nat) : 0 <= picked code i j.
Proof.
  unfold picked, Word.shr. apply Z.shiftr_nonneg, Z.land_nonneg. right.
  unfold Word.shl, Word.wrap. apply Z.mod_pos_bound. done.
Qed.

Lemma unpacked_nonneg (code : Z) (j K : nat) : 0 <= unpacked code j K.
Proof.
  induction K as [|K IH]; [done|].
  rewrite unpacked_S. apply Z.lor_nonneg. split; [done|apply picked_nonneg].
Qed.

Lemma testbit_lower_bound (x k : Z) :
  0 <= k → 0 <= x → Z.testbit x k = true → 2 ^ k <= x.
Proof.
  intros Hk Hx Hbit.
  destruct (Z.lt_ge_cases x (2 ^ k)) as [Hlt|]; [|done].
  rewrite (testbit_above k x k) in Hbit; [discriminate|done| |lia].
  by split.
Qed.

(** X4. [uninterleaveBits] fills the [n] cells with values below
    [2^(b+1)], not [2^b]: its loop over the levels runs for [i <= b], so a
    code with bit [3 b + (n - 1 - c)] set leaves bit [b] set in cell [c]. *)
Theorem uninterleaveBits_range (X : list Z) (b n : nat) (code : Z) :
  length X = n → 3 * (Z.of_nat b + 1) + Z.of_nat n < 2 ^ 32 →
  length (uninterleaveBits X b n code) = n ∧
  Forall (λ x, 0 <= x < 2 ^ (Z.of_nat b + 1)) (uninterleaveBits X b n code) ∧
  ∀ c, (c < n)%nat →
       3 * Z.of_nat b + Z.of_nat (n - 1 - c) < 32 →
       Z.testbit code (3 * Z.of_nat b + Z.of_nat (n - 1 - c)) = true →
       2 ^ Z.of_nat b <= uninterleaveBits X b n code !!! c.
Proof.
  intros Hlen Hsmall.
  destruct (uninterleaveBits_cells X b n code Hlen) as (HlenU & Hcells).
  split; [done|]. split.
  - apply (Forall_lookup_total_2 (λ x, 0 <= x < 2 ^ (Z.of_nat b + 1))).
    rewrite HlenU. intros c Hc. rewrite Hcells by done.
    apply (fits_of_bits (Z.of_nat b + 1)); [lia | apply unpacked_nonneg |].
    intros i Hi. rewrite unpacked_bits by lia.
    by rewrite (proj2 (Z.ltb_ge i (Z.of_nat (b + 1)))) by lia.
  - intros c Hc Hpos Hbit. rewrite Hcells by done.
    apply testbit_lower_bound; [lia | apply unpacked_nonneg |].
    rewrite unpacked_bits by lia.
    rewrite Hbit, !(proj2 (Z.ltb_lt _ _)) by lia. done.
Qed.

Lemma uninterleaveBits_range_witness :
  length (uninterleaveBits [0] 1 1 8) = 1%nat ∧
  Forall (λ x, 0 <= x < 2 ^ (Z.of_nat 1 + 1)) (uninterleaveBits [0] 1 1 8) ∧
  ∀ c, (c < 1)%nat →
       3 * Z.of_nat 1 + Z.of_nat (1 - 1 - c) < 32 →
       Z.testbit 8 (3 * Z.of_nat 1 + Z.of_nat (1 - 1 - c)) = true →
       2 ^ Z.of_nat 1 <= uninterleaveBits [0] 1 1 8 !!! c.
Proof.
  apply (uninterleaveBits_range [0] 1 1 8); [done | by vm_compute].
Defined.

Lemma to_int_of_wrap (u v : Z) :
  Word.wrap u = Word.wrap v → Word.to_int u = Word.to_int v.
Proof. intros H. unfold Word.to_int. by rewrite H. Qed.

(** The value returned by [interleaveBits] is an [int]. *)
Lemma interleaveBits_is_int (X : list Z) (b n : nat) :
  ∃ u, interleaveBits X b n = Word.to_int u.
Proof.
  unfold interleaveBits, interleaveBits_run.
  destruct (foldl _ _ (upto 0 ((2 * b + 1) / 2))) as [s a]. simpl snd.
  apply (foldl_invariant (λ r, ∃ u, r = Word.to_int u)).
  - by eexists.
  - intros r j _. unfold merge. by eexists.
Qed.

Lemma interleaveBits_ext_wrap (X Y : list Z) (b b' n n' : nat) :
  Word.wrap (interleaveBits X b n) = Word.wrap (interleaveBits Y b' n') →
  interleaveBits X b n = interleaveBits Y b' n'.
Proof.
  destruct (interleaveBits_is_int X b n) as [u Hu].
  destruct (interleaveBits_is_int Y b' n') as [v Hv].
  rewrite Hu, Hv, !wrap_to_int. apply to_int_of_wrap.
Qed.

(** X5. [interleaveBits] reads only the low [b] bits of every coordinate:
    whatever a cell holds at position [b] and above does not reach the
    code. *)
Theorem interleaveBits_ignores_high_bits (X : list Z) (b n : nat) :
  (1 ≤ n)%nat → length X = n →
  interleaveBits ((λ x, x mod 2 ^ Z.of_nat b) <$> X) b n
  = interleaveBits X b n.
Proof.
  intros Hn Hlen. apply interleaveBits_ext_wrap.
  apply Z.bits_inj'. intros p Hp. apply eq_true_iff_eq.
  rewrite !interleaved_code_bit by done.
  apply and_iff_compat_l.
  split; intros (j & k & Hj & Hk & Hpos & Hbit); exists j, k;
    (repeat split; [done..|]).
  - rewrite (list_lookup_total_fmap (λ x, x mod 2 ^ Z.of_nat b) X j) in Hbit
      by lia.
    by rewrite Z.mod_pow2_bits_low in Hbit by lia.
  - rewrite (list_lookup_total_fmap (λ x, x mod 2 ^ Z.of_nat b) X j) by lia.
    by rewrite Z.mod_pow2_bits_low by lia.
Qed.

Lemma interleaveBits_ignores_high_bits_witness :
  interleaveBits ((λ x, x mod 2 ^ Z.of_nat 2) <$> [7; 5]) 2 2
  = interleaveBits [7; 5] 2 2.
Proof.
  apply (interleaveBits_ignores_high_bits [7; 5] 2 2); [lia | done].
Defined.

(** X6. The code fits the bits it is packed into: with the highest position
    [3 (b - 1) + n - 1] below the sign bit, [interleaveBits] returns a
    non-negative [int] below [2^(3 b + n - 3)]. *)
Theorem interleaveBits_range (X : list Z) (b n : nat) :
  (1 ≤ n)%nat → (1 ≤ b)%nat → (3 * b + n ≤ 34)%nat → length X = n →
  0 <= interleaveBits X b n < 2 ^ Z.of_nat (3 * b + n - 3).
Proof.
  intros Hn Hb Hsmall _.
  assert (Hfits : fits (Z.of_nat (3 * b + n - 3))
                    (Word.wrap (interleaveBits X b n))).
  { apply fits_of_bits; [lia | apply Z.mod_pos_bound; done |].
    intros p Hp.
    destruct (Z.testbit (Word.wrap (interleaveBits X b n)) p) eqn:Hbit;
      [|done].
    apply interleaved_code_bit in Hbit
        as (_ & j & k & Hj & Hk & Hpos & _); lia. }
  destruct (interleaveBits_is_int X b n) as [u Hu].
  rewrite Hu, wrap_to_int in Hfits.
  assert (H31 : 2 ^ Z.of_nat (3 * b + n - 3) <= 2 ^ 31)
    by (apply Z.pow_le_mono_r; lia).
  rewrite Hu. unfold Word.to_int. cbv zeta.
  change (Word.width - 1) with 31.
  destruct Hfits as [H0 Hlt].
  by rewrite (proj2 (Z.ltb_lt (Word.wrap u) (2 ^ 31))) by lia.
Qed.

Lemma interleaveBits_range_witness :
  0 <= interleaveBits [10; 14; 27] 5 3 < 2 ^ Z.of_nat (3 * 5 + 3 - 3).
Proof.
  apply (interleaveBits_range [10; 14; 27] 5 3); [lia | lia | lia | done].
Defined.

(** ** The whole pipeline of [main] *)

(** X7. The four calls of [main], in its order, bring every point of up to
    three [b]-bit coordinates back: transpose, pack, unpack, back to axes. *)
Theorem pipeline_round_trip (X : list Z) (b n : nat) :
  (1 ≤ n ≤ 3)%nat → (1 ≤ b)%nat → (3 * b + n ≤ 35)%nat → coords b n X →
  hilbert_round_trip X b n = Some X.
Proof.
  intros Hn Hb1 Hb [Hlen HX]%coords_fits.
  rewrite Z.min_l in HX by lia.
  assert (Hdown : Z.of_nat (planes_down b) <= Z.of_nat b).
  { unfold planes_down. destruct (Nat.leb_spec b 32); lia. }
  destruct (AxestoTranspose_fits (Z.of_nat b) X b n Hb1 Hdown Hlen HX)
    as (T & HT & HlenT & HfitsT).
  pose proof (there_and_back_fits X b n) as Hback.
  unfold there_and_back in Hback. unfold hilbert_round_trip.
  rewrite HT in *. simpl in *.
  rewrite pack_unpack_small by (done || lia).
  apply Hback; (done || lia).
Qed.

Lemma pipeline_round_trip_witness :
  hilbert_round_trip [5; 10; 20] 5 3 = Some [5; 10; 20].
Proof.
  assert (H : coords 5 3 [5; 10; 20]).
  { split; [done|]. repeat constructor; by vm_compute. }
  apply (pipeline_round_trip [5; 10; 20] 5 3); [lia | lia | lia | exact H].
Defined.

(** ** The transforms: passes, steps, injectivity *)

Lemma iterations_stop {St : Type} (fuel : nat) (cond : St → bool)
  (body : St → St) (s : St) :
  cond s = false → iterations fuel cond body s = 0%nat.
Proof. intros H. destruct fuel; simpl; by rewrite H. Qed.

Lemma iterations_step {St : Type} (fuel : nat) (cond : St → bool)
  (body : St → St) (s : St) :
  cond s = true →
  iterations (S fuel) cond body s = S (iterations fuel cond body (body s)).
Proof. intros H. simpl. by rewrite H. Qed.

Lemma inverse_undo_count (n : nat) :
  ∀ (q fuel : nat) (X : list Z),
    (q ≤ fuel)%nat → (q ≤ 31)%nat →
    iterations fuel plane_above_one (inverse_undo_body n) (2 ^ Z.of_nat q, X)
    = q.
Proof.
  induction q as [|q IH]; intros fuel X Hf Hq.
  - by apply iterations_stop.
  - destruct fuel as [|fuel]; [lia|].
    rewrite iterations_step by (apply Z.ltb_lt, pow2_gt_1).
    rewrite inverse_undo_body_eq, shr_pow2. by rewrite IH by lia.
Qed.

Lemma correction_count (n : nat) (X : list Z) :
  ∀ (q fuel : nat) (t : Z),
    (q ≤ fuel)%nat → (q ≤ 31)%nat →
    iterations fuel plane_above_one (correction_body n X) (2 ^ Z.of_nat q, t)
    = q.
Proof.
  induction q as [|q IH]; intros fuel t Hf Hq.
  - by apply iterations_stop.
  - destruct fuel as [|fuel]; [lia|].
    rewrite iterations_step by (apply Z.ltb_lt, pow2_gt_1).
    rewrite correction_body_eq, shr_pow2. by rewrite IH by lia.
Qed.

Lemma undo_excess_count (n : nat) :
  ∀ (d k fuel : nat) (X : list Z),
    (d ≤ fuel)%nat → (k + d ≤ 32)%nat →
    iterations fuel (plane_differs (Word.wrap (2 ^ Z.of_nat (k + d))))
      (undo_excess_body n) (Word.wrap (2 ^ Z.of_nat k), X)
    = d.
Proof.
  induction d as [|d IH]; intros k fuel X Hf Hk.
  - rewrite Nat.add_0_r. apply iterations_stop.
    unfold plane_differs. simpl fst. by rewrite Z.eqb_refl.
  - destruct fuel as [|fuel]; [lia|].
    assert (Hok : Word.ok (2 ^ Z.of_nat k)) by (apply pow2_ok; lia).
    rewrite (wrap_small (2 ^ Z.of_nat k)) by done.
    rewrite iterations_step.
    2:{ unfold plane_differs. simpl fst. apply negb_true_iff, Z.eqb_neq.
        destruct (decide (k + S d ≤ 31)%nat) as [Hle|Hgt].
        - rewrite wrap_small by (by apply pow2_ok).
          intros Heq. apply Z.pow_inj_r in Heq; lia.
        - rewrite wrap_pow2_high by lia.
          assert (0 < 2 ^ Z.of_nat k) by (apply Z.pow_pos_nonneg; lia). lia. }
    rewrite undo_excess_body_eq, shl_pow2.
    replace (k + S d)%nat with (S k + d)%nat by lia.
    by rewrite IH by lia.
Qed.

(** X8. For [1 <= b <= 32] every loop over the bit planes runs exactly
    [b - 1] times -- the two loops of [AxestoTranspose] downwards from
    [2^(b-1)], the loop of [TransposetoAxes] upwards to it -- and both
    transforms return, for arrays of any contents. *)
Theorem plane_passes (X : list Z) (b n : nat) :
  (1 ≤ b ≤ 32)%nat →
  iterations plane_fuel plane_above_one (inverse_undo_body n)
    (Word.shl 1 (Z.of_nat b - 1), X) = (b - 1)%nat ∧
  iterations plane_fuel plane_above_one (correction_body n X)
    (Word.shl 1 (Z.of_nat b - 1), 0) = (b - 1)%nat ∧
  iterations plane_fuel (plane_differs (Word.shl 2 (Z.of_nat b - 1)))
    (undo_excess_body n) (2, X) = (b - 1)%nat ∧
  is_Some (AxestoTranspose X b n) ∧ is_Some (TransposetoAxes X b n).
Proof.
  intros Hb.
  rewrite shl_1, shl_2 by lia.
  rewrite (wrap_small (2 ^ Z.of_nat (b - 1))) by (apply pow2_ok; lia).
  repeat split.
  - apply inverse_undo_count; unfold plane_fuel; lia.
  - apply correction_count; unfold plane_fuel; lia.
  - replace b with (1 + (b - 1))%nat at 1 by lia.
    change 2 with (Word.wrap (2 ^ Z.of_nat 1)) at 2.
    apply undo_excess_count; unfold plane_fuel; lia.
  - rewrite AxestoTranspose_eq by lia. by eexists.
  - rewrite TransposetoAxes_eq by lia. by eexists.
Qed.

Lemma plane_passes_witness :
  iterations plane_fuel plane_above_one (inverse_undo_body 3)
    (Word.shl 1 (Z.of_nat 5 - 1), [5; 10; 20]) = (5 - 1)%nat ∧
  iterations plane_fuel plane_above_one (correction_body 3 [5; 10; 20])
    (Word.shl 1 (Z.of_nat 5 - 1), 0) = (5 - 1)%nat ∧
  iterations plane_fuel (plane_differs (Word.shl 2 (Z.of_nat 5 - 1)))
    (undo_excess_body 3) (2, [5; 10; 20]) = (5 - 1)%nat ∧
  is_Some (AxestoTranspose [5; 10; 20] 5 3) ∧
  is_Some (TransposetoAxes [5; 10; 20] 5 3).
Proof. apply (plane_passes [5; 10; 20] 5 3). lia. Defined.

(** X9. One step of a bit plane (invert or exchange at plane [2^k], index
    [i]) is its own inverse: run twice on any array, it restores it. *)
Theorem plane_step_involution (X : list Z) (k i : nat) :
  (i < length X)%nat →
  invert_or_exchange (2 ^ Z.of_nat k) (2 ^ Z.of_nat k - 1)
    (invert_or_exchange (2 ^ Z.of_nat k) (2 ^ Z.of_nat k - 1) X i) i
  = X.
Proof. apply invert_or_exchange_twice. Qed.

Lemma plane_step_involution_witness :
  invert_or_exchange (2 ^ Z.of_nat 2) (2 ^ Z.of_nat 2 - 1)
    (invert_or_exchange (2 ^ Z.of_nat 2) (2 ^ Z.of_nat 2 - 1) [5; 3; 6] 1) 1
  = [5; 3; 6].
Proof. apply (plane_step_involution [5; 3; 6] 2 1). simpl. lia. Defined.

(** X10. One step of a bit plane touches only [X[0]] and [X[i]], and in no
    cell a bit at the position of the plane or above: the array keeps its
    length, the other cells are unchanged, and every cell keeps its bits
    from [k] upwards. *)
Theorem plane_step_frame (X : list Z) (k i : nat) :
  (i < length X)%nat →
  let X' := invert_or_exchange (2 ^ Z.of_nat k) (2 ^ Z.of_nat k - 1) X i in
  length X' = length X ∧
  (∀ j, j ≠ 0%nat → j ≠ i → X' !!! j = X !!! j) ∧
  (∀ j p, Z.of_nat k <= p → Z.testbit (X' !!! j) p = Z.testbit (X !!! j) p).
Proof.
  intros Hi X'. subst X'. split; [apply invert_or_exchange_length|]. split.
  - intros j Hj0 Hji. rewrite invert_or_exchange_lookup by done.
    unfold step_mask. destruct (negb _).
    + rewrite decide_False by done. apply Z.lxor_0_r.
    + rewrite decide_False by (intros [?|?]; done). apply Z.lxor_0_r.
  - intros j p Hp. rewrite invert_or_exchange_lookup, Z.lxor_spec by done.
    rewrite (testbit_above (Z.of_nat k) (step_mask _ _ X i j) p);
      [apply xorb_false_r | lia | | done].
    apply step_mask_fits; [lia | apply low_mask_fits].
Qed.

Lemma plane_step_frame_witness :
  let X' := invert_or_exchange (2 ^ Z.of_nat 2) (2 ^ Z.of_nat 2 - 1)
              [5; 3; 6] 1 in
  length X' = length [5; 3; 6] ∧
  (∀ j, j ≠ 0%nat → j ≠ 1%nat → X' !!! j = [5; 3; 6] !!! j) ∧
  (∀ j p, Z.of_nat 2 <= p →
          Z.testbit (X' !!! j) p = Z.testbit ([5; 3; 6] !!! j) p).
Proof. apply (plane_step_frame [5; 3; 6] 2 1). simpl. lia. Defined.

(** X11. Both transforms are injective on [b]-bit vectors: two different
    points never get the same transpose, nor two transposes the same point. *)
Theorem transforms_injective (X Y : list Z) (b n : nat) :
  (1 ≤ n)%nat → (1 ≤ b ≤ 32)%nat → coords b n X → coords b n Y →
  (AxestoTranspose X b n = AxestoTranspose Y b n → X = Y) ∧
  (TransposetoAxes X b n = TransposetoAxes Y b n → X = Y).
Proof.
  intros Hn Hb [HlenX HX]%coords_fits [HlenY HY]%coords_fits.
  rewrite Z.min_l in HX, HY by lia. split; intros Heq.
  - pose proof (there_and_back_fits X b n Hn Hb HlenX HX) as H1.
    pose proof (there_and_back_fits Y b n Hn Hb HlenY HY) as H2.
    unfold there_and_back in *. rewrite Heq, H2 in H1. by injection H1.
  - pose proof (back_and_there_fits X b n Hn Hb HlenX HX) as H1.
    pose proof (back_and_there_fits Y b n Hn Hb HlenY HY) as H2.
    unfold back_and_there in *. rewrite Heq, H2 in H1. by injection H1.
Qed.

Lemma transforms_injective_witness :
  (AxestoTranspose [5; 10; 20] 5 3 = AxestoTranspose [6; 10; 20] 5 3 →
   [5; 10; 20] = [6; 10; 20]) ∧
  (TransposetoAxes [5; 10; 20] 5 3 = TransposetoAxes [6; 10; 20] 5 3 →
   [5; 10; 20] = [6; 10; 20]).
Proof.
  assert (H1 : coords 5 3 [5; 10; 20]).
  { split; [done|]. repeat constructor; by vm_compute. }
  assert (H2 : coords 5 3 [6; 10; 20]).
  { split; [done|]. repeat constructor; by vm_compute. }
  apply (transforms_injective [5; 10; 20] [6; 10; 20] 5 3);
    [lia | lia | exact H1 | exact H2].
Defined.

(** ** The origin *)

Lemma zeros_step (Q P : Z) (n i : nat) :
  (i < n)%nat →
  invert_or_exchange Q P (replicate n 0) i = replicate n 0.
Proof.
  intros Hi. unfold invert_or_exchange.
  rewrite !lookup_total_replicate_2 by lia.
  rewrite Z.land_0_l. simpl negb. cbv iota zeta.
  rewrite Z.lxor_0_l, Z.land_0_l, insert_replicate.
  rewrite lookup_total_replicate_2 by lia.
  by rewrite Z.lxor_0_l, insert_replicate.
Qed.

Lemma zeros_planes (n : nat) (order ks : list nat) :
  (∀ i, i ∈ order → (i < n)%nat) →
  foldl (plane order) (replicate n 0) ks = replicate n 0.
Proof.
  intros Horder.
  apply (foldl_invariant (λ Y, Y = replicate n 0)); [done|].
  intros Y k ->. unfold plane.
  apply (foldl_invariant_elem (λ Y, Y = replicate n 0)); [|done].
  intros Y i Hi ->. apply zeros_step. by apply Horder.
Qed.

Lemma zeros_chain (n : nat) (l : list nat) :
  (∀ i, i ∈ l → (1 ≤ i < n)%nat) →
  foldl xor_prev (replicate n 0) l = replicate n 0.
Proof.
  intros Hl.
  apply (foldl_invariant_elem (λ Y, Y = replicate n 0)); [|done].
  intros Y i Hi ->. apply Hl in Hi. unfold xor_prev.
  rewrite !lookup_total_replicate_2 by lia.
  by rewrite Z.lxor_0_l, insert_replicate.
Qed.

Lemma gray_mask_0 (q : nat) : gray_mask q 0 = 0.
Proof.
  unfold gray_mask. apply (foldl_invariant (λ t, t = 0)); [done|].
  intros t k ->. unfold gray_mask_step. by rewrite Z.bits_0.
Qed.

Lemma unpacked_0 (j K : nat) : unpacked 0 j K = 0.
Proof.
  unfold unpacked. apply (foldl_invariant (λ t, t = 0)); [done|].
  intros t i ->. unfold picked, Word.shr.
  by rewrite Z.land_0_l, Z.shiftr_0_l.
Qed.

(** X12. The origin and the code 0 correspond in every dimension: the
    transforms map the all-zero vector to itself, [interleaveBits] packs it
    as 0, and [uninterleaveBits] unpacks 0 as the all-zero vector whatever
    the array held. *)
Theorem origin_is_code_zero (X : list Z) (b n : nat) :
  (1 ≤ n)%nat → (1 ≤ b ≤ 32)%nat → length X = n →
  AxestoTranspose (replicate n 0) b n = Some (replicate n 0) ∧
  interleaveBits (replicate n 0) b n = 0 ∧
  uninterleaveBits X b n 0 = replicate n 0 ∧
  TransposetoAxes (replicate n 0) b n = Some (replicate n 0).
Proof.
  intros Hn Hb Hlen.
  assert (Hchain : ∀ l, (∀ i, i ∈ l → (1 ≤ i < n)%nat) →
                        foldl xor_prev (replicate n 0) l = replicate n 0)
    by apply zeros_chain.
  repeat split.
  - rewrite AxestoTranspose_eq by lia. cbv zeta.
    rewrite zeros_planes by (intros i Hi; by apply elem_of_upto_0).
    unfold gray_encode. rewrite Hchain.
    2:{ intros i Hi. apply elem_of_upto in Hi. lia. }
    rewrite lookup_total_replicate_2, gray_mask_0 by lia.
    by rewrite xor_with_zero.
  - assert (Hw : Word.wrap (interleaveBits (replicate n 0) b n) = 0).
    { apply Z.bits_inj'. intros p Hp. rewrite Z.bits_0.
      destruct (Z.testbit _ p) eqn:Hbit; [|done].
      apply interleaved_code_bit in Hbit
          as (_ & j & k & Hj & _ & _ & Hbit); [|done..].
      rewrite lookup_total_replicate_2, Z.bits_0 in Hbit by lia.
      discriminate. }
    destruct (interleaveBits_is_int (replicate n 0) b n) as [u Hu].
    rewrite Hu, wrap_to_int in Hw. rewrite Hu.
    unfold Word.to_int. by rewrite Hw.
  - destruct (uninterleaveBits_cells X b n 0 Hlen) as (HlenU & Hcells).
    apply list_eq_total; [by rewrite length_replicate|].
    rewrite HlenU. intros c Hc.
    by rewrite Hcells, unpacked_0, lookup_total_replicate_2 by lia.
  - rewrite TransposetoAxes_eq by lia.
    assert (Hdec : gray_decode n (replicate n 0) = replicate n 0).
    { unfold gray_decode. rewrite Hchain.
      2:{ intros i Hi. apply elem_of_downto in Hi. lia. }
      rewrite !lookup_total_replicate_2 by lia.
      unfold Word.shr. by rewrite Z.shiftr_0_l, Z.lxor_0_l, insert_replicate. }
    rewrite Hdec.
    by rewrite zeros_planes by (intros i Hi; by apply elem_of_downto_0).
Qed.

Lemma origin_is_code_zero_witness :
  AxestoTranspose (replicate 3 0) 5 3 = Some (replicate 3 0) ∧
  interleaveBits (replicate 3 0) 5 3 = 0 ∧
  uninterleaveBits [10; 14; 27] 5 3 0 = replicate 3 0 ∧
  TransposetoAxes (replicate 3 0) 5 3 = Some (replicate 3 0).
Proof.
  apply (origin_is_code_zero [10; 14; 27] 5 3); [lia | lia | done].
Defined.

(** ** The Gray phases in closed form *)

Lemma xor_take_S (X : list Z) (i : nat) :
  (i < length X)%nat →
  foldl Z.lxor 0 (take (S i) X)
  = Z.lxor (foldl Z.lxor 0 (take i X)) (X !!! i).
Proof.
  intros Hi.
  rewrite (take_S_r X i (X !!! i))
    by (by apply list_lookup_lookup_total_lt).
  by rewrite foldl_snoc.
Qed.

(** The chain walked upwards accumulates: cell [i] gets the xor of the
    cells [0 .. i]. *)
Lemma chain_up_lookup :
  ∀ (k : nat) (X : list Z) (i : nat),
    (k < length X)%nat →
    foldl xor_prev X (upto 1 k) !!! i
    = if decide (i ≤ k)%nat then foldl Z.lxor 0 (take (S i) X) else X !!! i.
Proof.
  induction k as [|k IH]; intros X i Hk.
  - change (upto 1 0) with (@nil nat). simpl foldl.
    case_decide; [|done]. replace i with 0%nat by lia.
    rewrite xor_take_S by done. by rewrite Z.lxor_0_l.
  - rewrite (upto_snoc 1 k), foldl_snoc.
    rewrite xor_prev_lookup by (rewrite chain_length; lia).
    rewrite !IH by lia.
    replace (1 + k - 1)%nat with k by lia.
    repeat case_decide; try (exfalso; lia); try done.
    subst i. rewrite (xor_take_S X (1 + k)) by lia. apply Z.lxor_comm.
Qed.

(** X13. The Gray encode loop of [AxestoTranspose] leaves in cell [i] the
    xor of the cells [0 .. i] it started from. *)
Theorem gray_encode_running_xor (X : list Z) (n i : nat) :
  length X = n → (i < n)%nat →
  gray_encode n X !!! i = foldl Z.lxor 0 (take (S i) X).
Proof.
  intros Hlen Hi. unfold gray_encode.
  rewrite chain_up_lookup by lia. by rewrite decide_True by lia.
Qed.

Lemma gray_encode_running_xor_witness :
  gray_encode 3 [5; 10; 20] !!! 2%nat
  = foldl Z.lxor 0 (take (S 2) [5; 10; 20]).
Proof. apply (gray_encode_running_xor [5; 10; 20] 3 2); [done | lia]. Defined.

(** X14. The Gray decode of [TransposetoAxes] leaves in every cell
    [i >= 1] the xor of the cells [i] and [i - 1] it started from, and in
    cell 0 the old cell 0 xor-ed with half the old last cell. *)
Theorem gray_decode_cells (X : list Z) (n i : nat) :
  (1 ≤ n)%nat → length X = n → (i < n)%nat →
  gray_decode n X !!! i
  = if decide (i = 0%nat)
    then Z.lxor (X !!! 0%nat) (Word.shr (X !!! (n - 1)%nat) 1)
    else Z.lxor (X !!! i) (X !!! (i - 1)%nat).
Proof.
  intros Hn Hlen Hi. unfold gray_decode.
  rewrite list_lookup_total_insert, chain_length.
  rewrite !chain_down_lookup by lia.
  repeat case_decide; first [done | exfalso; lia | repeat f_equal; lia].
Qed.

Lemma gray_decode_cells_witness :
  gray_decode 3 [10; 14; 27] !!! 0%nat
  = if decide (0%nat = 0%nat)
    then Z.lxor ([10; 14; 27] !!! 0%nat)
           (Word.shr ([10; 14; 27] !!! (3 - 1)%nat) 1)
    else Z.lxor ([10; 14; 27] !!! 0%nat) ([10; 14; 27] !!! (0 - 1)%nat).
Proof.
  apply (gray_decode_cells [10; 14; 27] 3 0); [lia | done | lia].
Defined.

(** ** The top bit plane *)

Lemma plane_high_bits (p : Z) (order : list nat) (X : list Z) (k : nat) :
  Z.of_nat k <= p → (∀ i, i ∈ order → (i < length X)%nat) →
  ∀ j, Z.testbit (plane order X k !!! j) p = Z.testbit (X !!! j) p.
Proof.
  intros Hk Horder. unfold plane.
  apply (foldl_invariant_elem
           (λ Y, length Y = length X
                 ∧ ∀ j, Z.testbit (Y !!! j) p = Z.testbit (X !!! j) p));
    [|done].
  intros Y i Hi [Hlen Hbits]. split.
  - by rewrite invert_or_exchange_length.
  - intros j. rewrite <- Hbits.
    rewrite invert_or_exchange_lookup, Z.lxor_spec
      by (rewrite Hlen; by apply Horder).
    rewrite (testbit_above (Z.of_nat k) (step_mask _ _ Y i j) p);
      [apply xorb_false_r | lia | | done].
    apply step_mask_fits; [lia | apply low_mask_fits].
Qed.

Lemma planes_high_bits (p : Z) (order ks : list nat) (X : list Z) :
  (∀ k, k ∈ ks → Z.of_nat k <= p) →
  (∀ i, i ∈ order → (i < length X)%nat) →
  ∀ j, Z.testbit (foldl (plane order) X ks !!! j) p = Z.testbit (X !!! j) p.
Proof.
  intros Hks Horder.
  apply (foldl_invariant_elem
           (λ Y, length Y = length X
                 ∧ ∀ j, Z.testbit (Y !!! j) p = Z.testbit (X !!! j) p));
    [|done].
  intros Y k Hk [Hlen Hbits]. split.
  - by rewrite plane_length.
  - intros j. rewrite <- Hbits. apply plane_high_bits; [by apply Hks|].
    intros i Hi. rewrite Hlen. by apply Horder.
Qed.

Lemma running_xor_bit_ext (p : Z) (X Y : list Z) :
  length Y = length X →
  (∀ j, Z.testbit (Y !!! j) p = Z.testbit (X !!! j) p) →
  ∀ m, (m ≤ length X)%nat →
       Z.testbit (foldl Z.lxor 0 (take m Y)) p
       = Z.testbit (foldl Z.lxor 0 (take m X)) p.
Proof.
  intros Hlen Hbits. induction m as [|m IH]; intros Hm; [done|].
  rewrite !xor_take_S, !Z.lxor_spec, IH, Hbits by lia. done.
Qed.

(** X15. The top bit plane of the transpose is the Gray chain of the top
    bit plane of the axes: bit [b - 1] of cell [i] of the result of
    [AxestoTranspose] is the xor of bit [b - 1] of the cells [0 .. i] of
    the input; the loops over the planes never reach that bit. *)
Theorem transpose_top_plane (X : list Z) (b n i : nat) :
  (1 ≤ b ≤ 32)%nat → length X = n → (i < n)%nat →
  ∃ T, AxestoTranspose X b n = Some T ∧
       Z.testbit (T !!! i) (Z.of_nat b - 1)
       = Z.testbit (foldl Z.lxor 0 (take (S i) X)) (Z.of_nat b - 1).
Proof.
  intros Hb Hlen Hi. rewrite AxestoTranspose_eq by lia.
  eexists. split; [done|]. cbv zeta.
  assert (Hq : Z.of_nat (planes_down b) = Z.of_nat b - 1).
  { unfold planes_down. destruct (Nat.leb_spec b 32); lia. }
  set (Y := foldl (plane (upto 0 n)) X (downto 1 (planes_down b))).
  assert (HlenY : length Y = n) by (subst Y; by rewrite planes_length).
  assert (HlenG : length (gray_encode n Y) = n)
    by (unfold gray_encode; by rewrite chain_length).
  rewrite xor_all_lookup, Z.lxor_spec by done.
  rewrite (testbit_above (Z.of_nat (planes_down b)) (gray_mask _ _));
    [|lia|apply gray_mask_fits|lia].
  rewrite xorb_false_r. unfold gray_encode.
  rewrite chain_up_lookup, decide_True by lia.
  apply running_xor_bit_ext; [lia| |lia].
  intros j. subst Y. apply planes_high_bits.
  - intros k Hk. apply elem_of_downto in Hk. lia.
  - intros i' Hi'. apply elem_of_upto_0 in Hi'. lia.
Qed.

Lemma transpose_top_plane_witness :
  ∃ T, AxestoTranspose [5; 10; 20] 5 3 = Some T ∧
       Z.testbit (T !!! 2%nat) (Z.of_nat 5 - 1)
       = Z.testbit (foldl Z.lxor 0 (take (S 2) [5; 10; 20])) (Z.of_nat 5 - 1).
Proof. apply (transpose_top_plane [5; 10; 20] 5 3 2); [lia | done | lia]. Defined.

(** ** Along the curve *)

Lemma picked_bit_eq (code : Z) (i j : nat) :
  3 * Z.of_nat i + Z.of_nat j < 32 → picked code i j = picked_bit code i j.
Proof.
  intros Hpos. apply Z.bits_inj'. intros p Hp.
  rewrite picked_bits by lia. unfold picked_bit.
  rewrite (proj2 (Z.ltb_lt _ 32)) by lia. rewrite andb_true_r.
  destruct (Z.testbit code _).
  - rewrite Z.shiftl_1_l, Z.pow2_bits_eqb, andb_true_r by lia.
    apply Z.eqb_sym.
  - by rewrite Z.bits_0, andb_false_r.
Qed.

Lemma unpacked_picked_bit (code : Z) (j K : nat) :
  3 * Z.of_nat K + Z.of_nat j < 35 →
  unpacked code j K
  = foldl (λ acc i, Z.lor acc (picked_bit code i j)) 0 (upto 0 K).
Proof.
  induction K as [|K IH]; intros HK; [done|].
  rewrite unpacked_S, (upto_snoc 0 K), foldl_snoc, IH by lia.
  by rewrite picked_bit_eq by lia.
Qed.

(** The point of a code, as [main] obtains it, is the loop-free one. *)
Lemma hilbert_point_3 (b : nat) (code : Z) :
  (1 ≤ b ≤ 9)%nat → hilbert_point b 3 code = Some (point_3 b code).
Proof.
  intros Hb. unfold hilbert_point, point_3.
  rewrite TransposetoAxes_eq, uninterleaveBits_3 by (done || lia).
  by rewrite !unpacked_picked_bit by lia.
Qed.

Lemma unit_steps_S (b : nat) (P : list Z) (code : Z) (steps : nat) :
  unit_steps b P code (S steps)
  = if (length (point_3 b (code + 1)) =? 3)%nat
       && (manhattan P (point_3 b (code + 1)) =? 1)
    then unit_steps b (point_3 b (code + 1)) (code + 1) steps
    else false.
Proof. reflexivity. Qed.

Lemma unit_steps_spec (b : nat) :
  ∀ (steps : nat) (code : Z),
    unit_steps b (point_3 b code) code steps = true →
    ∀ k : nat, (k < steps)%nat →
      length (point_3 b (code + Z.of_nat k + 1)) = 3%nat
      ∧ manhattan (point_3 b (code + Z.of_nat k))
          (point_3 b (code + Z.of_nat k + 1)) = 1.
Proof.
  induction steps as [|steps IH]; intros code Hwalk k Hk; [lia|].
  rewrite unit_steps_S in Hwalk.
  destruct (_ && _) eqn:Hstep in Hwalk; [|discriminate Hwalk].
  apply andb_true_iff in Hstep as [Hlen Hstep].
  destruct k as [|k].
  - rewrite Z.add_0_r. split; [by apply Nat.eqb_eq | by apply Z.eqb_eq].
  - replace (code + Z.of_nat (S k)) with (code + 1 + Z.of_nat k) by lia.
    apply IH; [exact Hwalk | lia].
Qed.

(** X16. On the cube of [main] (three coordinates of five bits, 32768
    codes) the curve is continuous: the points of two consecutive codes,
    unpacked by [uninterleaveBits] and mapped by [TransposetoAxes], differ
    by one in exactly one coordinate. *)
Theorem cube_unit_steps (code : Z) :
  0 <= code < 32767 →
  ∃ P Q, hilbert_point 5 3 code = Some P
         ∧ hilbert_point 5 3 (code + 1) = Some Q
         ∧ length Q = 3%nat ∧ manhattan P Q = 1.
Proof.
  intros Hcode.
  assert (Hwalk : unit_steps 5 (point_3 5 0) 0 (Z.to_nat 32767) = true)
    by (vm_compute; reflexivity).
  destruct (unit_steps_spec 5 _ 0 Hwalk (Z.to_nat code)) as [Hlen Hstep];
    [lia|].
  rewrite Z2Nat.id, Z.add_0_l in Hlen, Hstep by lia.
  exists (point_3 5 code), (point_3 5 (code + 1)).
  rewrite !hilbert_point_3 by lia.
  split; [reflexivity|]. split; [reflexivity|]. split; [exact Hlen|].
  exact Hstep.
Qed.

Lemma cube_unit_steps_witness :
  ∃ P Q, hilbert_point 5 3 7865 = Some P
         ∧ hilbert_point 5 3 (7865 + 1) = Some Q
         ∧ length Q = 3%nat ∧ manhattan P Q = 1.
Proof. apply (cube_unit_steps 7865). lia. Defined.

(** X17. In three dimensions every code below [2^(3 b)] is the code of the
    vector it unpacks to: [interleaveBits] undoes [uninterleaveBits], so
    together with the round trip the other way the two are a bijection
    between [b]-bit triples and [3 b]-bit codes. *)
Theorem unpack_pack_three_dimensions (X : list Z) (b : nat) (code : Z) :
  (1 ≤ b ≤ 10)%nat → length X = 3%nat → 0 <= code < 2 ^ Z.of_nat (3 * b) →
  interleaveBits (uninterleaveBits X b 3 code) b 3 = code.
Proof.
  intros Hb Hlen Hcode.
  destruct (uninterleaveBits_cells X b 3 code Hlen) as (HlenU & Hcells).
  set (U := uninterleaveBits X b 3 code) in *.
  assert (Hw : Word.wrap (interleaveBits U b 3) = code).
  { apply Z.bits_inj'. intros p Hp. apply eq_true_iff_eq.
    rewrite interleaved_code_bit by lia. split.
    - intros (Hp32 & j & k & Hj & Hk & -> & Hbit).
      rewrite Hcells, unpacked_bits in Hbit by (done || lia).
      apply andb_true_iff in Hbit as [_ Hbit]. exact Hbit.
    - intros Hbit.
      pose proof (testbit_fits (Z.of_nat (3 * b)) code p
                    (Nat2Z.is_nonneg _) Hcode Hbit) as Hlt.
      split; [lia|].
      exists (Z.to_nat (2 - p mod 3)), (Z.to_nat (p / 3)).
      assert (0 <= p mod 3 < 3) by (apply Z.mod_pos_bound; lia).
      assert (0 <= p / 3 < Z.of_nat b) by div3.
      assert (Hpos : p = 3 * Z.of_nat (Z.to_nat (p / 3))
                         + Z.of_nat (3 - 1 - Z.to_nat (2 - p mod 3))).
      { rewrite Z2Nat.id by lia.
        replace (Z.of_nat (3 - 1 - Z.to_nat (2 - p mod 3))) with (p mod 3)
          by lia.
        div3. }
      repeat split; [lia | lia | exact Hpos |].
      rewrite Hcells, unpacked_bits by lia.
      rewrite <- Hpos, Hbit. rewrite Z2Nat.id by lia.
      by rewrite !(proj2 (Z.ltb_lt _ _)) by lia. }
  destruct (interleaveBits_is_int U b 3) as [u Hu].
  rewrite Hu, wrap_to_int in Hw. rewrite Hu.
  unfold Word.to_int. cbv zeta. rewrite Hw.
  change (Word.width - 1) with 31.
  assert (2 ^ Z.of_nat (3 * b) <= 2 ^ 31) by (apply Z.pow_le_mono_r; lia).
  by rewrite (proj2 (Z.ltb_lt code (2 ^ 31))) by lia.
Qed.

Lemma unpack_pack_three_dimensions_witness :
  interleaveBits (uninterleaveBits [0; 0; 0] 5 3 7865) 5 3 = 7865.
Proof.
  apply (unpack_pack_three_dimensions [0; 0; 0] 5 7865);
    [lia | done | by vm_compute].
Defined.
